(** * Scout: the query compiler and the parallel scan of scout.cpp

    A shallow embedding of [Scout::parse_rules], [Scout::search] and the
    summation of [Scout::print_results], with the properties of the
    design document stated and settled against it. *)

From Stdlib Require Import ZArith Lia Ascii String.
From stdpp Require Import base tactics option list gmap strings sorting.

Set Warnings "-register-all".
Open Scope Z_scope.

(** ** Machine types *)

(** [Move] is a 16-bit encoded move, [Bitboard] and [Key] are 64-bit words,
    [GameResult] is the integer value of the enumeration of that name.
    [size_t] counters are integers kept below [2^64] by [wrap]. *)
Abbreviation Move := Z (only parsing).
Abbreviation Bitboard := Z (only parsing).
Abbreviation Key := Z (only parsing).
Abbreviation GameResult := Z (only parsing).

Definition wrap (n : Z) : Z := n mod 2 ^ 64.

Inductive Color := WHITE | BLACK.

Inductive PieceType := PAWN | KNIGHT | BISHOP | ROOK | QUEEN | KING.

(** The piece types visited by [for (PieceType pt = PAWN; pt <= KING; ++pt)]. *)
Definition piece_types : list PieceType :=
  [PAWN; KNIGHT; BISHOP; ROOK; QUEEN; KING].

Inductive RuleType :=
  | RuleNone | RulePattern | RuleMaterial | RuleWhite | RuleBlack
  | RuleResult | RuleEnd.

Global Instance Color_eq_dec : EqDecision Color.
Proof. solve_decision. Defined.
Global Instance PieceType_eq_dec : EqDecision PieceType.
Proof. solve_decision. Defined.
Global Instance RuleType_eq_dec : EqDecision RuleType.
Proof. solve_decision. Defined.

(** ** What the headers declare

    The values below are declared in headers the scan includes (types.h,
    scout.h): the reserved move that ends a game, the destination-square
    field of a move, and the enumerators of [GameResult].  They are taken
    as parameters; enumerators are pairwise different. *)
Class Encoding := {
  MOVE_NONE : Move;
  to_sq : Move → Z;
  WhiteWin : GameResult;
  BlackWin : GameResult;
  Draw : GameResult;
  Unknown : GameResult;
  Invalid : GameResult;
  results_distinct : NoDup [WhiteWin; BlackWin; Draw; Unknown; Invalid]
}.

(** The rules engine ([Position]) as the scan and the compiler use it.
    [set_fen] and [set_material] are the two overloads of [Position::set];
    [None] is a string the engine does not decode. *)
Class Engine := {
  Position : Type;
  do_move : Position → Move → Position;
  pieces : Position → Bitboard;
  pieces_c : Position → Color → Bitboard;
  pieces_pt : Position → PieceType → Bitboard;
  material_key : Position → Key;
  side_to_move : Position → Color;
  set_fen : string → option Position;
  set_material : string → option Position
}.

(** ** Outcomes

    [Undefined] stands for behaviour C++ leaves undefined or for a thrown
    exception that leaves the function; [Timeout] is a loop that has not
    finished within the fuel given. *)
Inductive outcome (A : Type) :=
  | Done (a : A)
  | Undefined
  | Timeout.
Arguments Done {A} a.
Arguments Undefined {A}.
Arguments Timeout {A}.

Global Instance outcome_bind : MBind outcome := λ A B k x,
  match x with
  | Done a => k a
  | Undefined => Undefined
  | Timeout => Timeout
  end.

Lemma bind_Done {A B} (a : A) (k : A → outcome B) : (Done a ≫= k) = k a.
Proof. reflexivity. Qed.

(** ** JSON values (json.hpp) *)

Inductive json :=
  | JNull
  | JBool (b : bool)
  | JNumber (n : Z)
  | JString (s : string)
  | JArray (l : list json)
  | JObject (m : gmap string json).

(** [j.empty()]: null is empty, a container is empty when it has no
    element, every other value (a string too, whatever its length) is not. *)
Definition json_empty (j : json) : bool :=
  match j with
  | JNull => true
  | JArray l => bool_decide (l = [])
  | JObject m => bool_decide (size m = 0%nat)
  | _ => false
  end.

(** [j[key]] on a non-const value: null behaves as an empty object, a
    missing key reads as null, any other kind of value throws. *)
Definition json_at (j : json) (key : string) : outcome json :=
  match j with
  | JNull => Done JNull
  | JObject m => Done (default JNull (m !! key))
  | _ => Undefined
  end.

(** [j == "text"] *)
Definition json_is (j : json) (s : string) : bool :=
  match j with
  | JString s' => bool_decide (s' = s)
  | _ => false
  end.

(** Implicit conversion to [std::string]; throws on any other kind. *)
Definition json_string (j : json) : outcome string :=
  match j with
  | JString s => Done s
  | _ => Undefined
  end.

(** ** The data of a query (Scout::Data) *)

Record Pattern := {
  all : Bitboard;
  white : Bitboard;
  pattern_pieces : list (PieceType * Bitboard)
}.

(** [baseAddress] is the memory seen from the base pointer of the mapping,
    one move per offset; the database occupies the offsets below [dbSize]. *)
Record Data := {
  baseAddress : nat → Move;
  dbSize : nat;
  rules : list RuleType;
  pattern : Pattern;
  matKey : Key;
  result : GameResult;
  movesCnt : Z;
  matchCnt : Z
}.

Definition push_rule (r : RuleType) (d : Data) : Data :=
  {| baseAddress := baseAddress d; dbSize := dbSize d;
     rules := rules d ++ [r]; pattern := pattern d; matKey := matKey d;
     result := result d; movesCnt := movesCnt d; matchCnt := matchCnt d |}.

Definition set_pattern (p : Pattern) (d : Data) : Data :=
  {| baseAddress := baseAddress d; dbSize := dbSize d;
     rules := rules d; pattern := p; matKey := matKey d;
     result := result d; movesCnt := movesCnt d; matchCnt := matchCnt d |}.

Definition set_matKey (k : Key) (d : Data) : Data :=
  {| baseAddress := baseAddress d; dbSize := dbSize d;
     rules := rules d; pattern := pattern d; matKey := k;
     result := result d; movesCnt := movesCnt d; matchCnt := matchCnt d |}.

Definition set_result (r : GameResult) (d : Data) : Data :=
  {| baseAddress := baseAddress d; dbSize := dbSize d;
     rules := rules d; pattern := pattern d; matKey := matKey d;
     result := r; movesCnt := movesCnt d; matchCnt := matchCnt d |}.

Definition set_counters (cnt matches : Z) (d : Data) : Data :=
  {| baseAddress := baseAddress d; dbSize := dbSize d;
     rules := rules d; pattern := pattern d; matKey := matKey d;
     result := result d; movesCnt := cnt; matchCnt := matches |}.

(** ** parse_rules *)

Section Compiler.
Context `{Encoding, Engine}.

(** The pattern set up from the position decoded from the "fen" field;
    [old] is the pattern already in the data, whose piece list is
    appended to. *)
Definition pattern_of (old : Pattern) (pos : Position) : Pattern :=
  {| all := pieces pos;
     white := pieces_c pos WHITE;
     pattern_pieces :=
       pattern_pieces old ++
       omap (λ pt, if pieces_pt pos pt =? 0 then None
                   else Some (pt, pieces_pt pos pt)) piece_types |}.

Definition parse_fen (data : Data) (j : json) : outcome Data :=
  fen ← json_at j "fen";
  if json_empty fen then Done data
  else
    s ← json_string fen;
    match set_fen s with
    | None => Undefined
    | Some pos =>
        Done (push_rule RulePattern
                (set_pattern (pattern_of (pattern data) pos) data))
    end.

Definition parse_material (data : Data) (j : json) : outcome Data :=
  material ← json_at j "material";
  if json_empty material then Done data
  else
    s ← json_string material;
    match set_material s with
    | None => Undefined
    | Some pos => Done (push_rule RuleMaterial (set_matKey (material_key pos) data))
    end.

Definition parse_stm (data : Data) (j : json) : outcome Data :=
  stm ← json_at j "stm";
  if json_empty stm then Done data
  else
    let rule := if json_is stm "WHITE" then RuleWhite else RuleBlack in
    Done (push_rule rule data).

(** The chain of conditional expressions that names a result. *)
Definition result_of_json (r : json) : GameResult :=
  if json_is r "1-0" then WhiteWin
  else if json_is r "0-1" then BlackWin
  else if json_is r "1/2-1/2" then Draw
  else if json_is r "*" then Unknown
  else Invalid.

Definition parse_result (data : Data) (j : json) : outcome Data :=
  r ← json_at j "result";
  if json_empty r then Done data
  else
    let res := result_of_json r in
    if res =? Invalid then Done data
    else Done (push_rule RuleResult (set_result res data)).

(** [j] is the value [json::parse] returned; an unparsable payload
    throws before any of this runs. *)
Definition parse_rules (data : Data) (j : json) : outcome Data :=
  data ← parse_fen data j;
  data ← parse_material data j;
  data ← parse_stm data j;
  data ← parse_result data j;
  Done (push_rule (if bool_decide (rules data = []) then RuleNone else RuleEnd)
                  data).
End Compiler.

(** ** search *)

(** Where the rule loop leaves a move: at the label [Failed], at the label
    [SkipToNext], through the [RuleEnd] case ([Matched]), or reading past
    the last element of the rule vector ([OverRun]). *)
Inductive verdict := Failed | SkipToNext | Matched | OverRun.

Global Instance verdict_eq_dec : EqDecision verdict.
Proof. solve_decision. Defined.

(** Number of elements of [StateInfo states[1024]]. *)
Definition MAX_STATES : nat := 1024.

Section Scan.
Context `{Encoding, Engine}.

(** The [RulePattern] case. *)
Definition pattern_ok (p : Pattern) (pos : Position) : bool :=
  (Z.land (pieces pos) (all p) =? all p)
  && (Z.land (pieces_c pos WHITE) (white p) =? white p)
  && forallb (λ q : PieceType * Bitboard,
                Z.land (pieces_pt pos q.1) q.2 =? q.2) (pattern_pieces p).

(** The loop [while (true) switch] on [*++curRule]; [cur] is the part of the
    rule vector from the incremented [curRule] on. *)
Fixpoint run_rules (d : Data) (res : GameResult) (pos : Position)
    (cur : list RuleType) : verdict :=
  match cur with
  | [] => OverRun
  | RuleNone :: _ => Failed
  | RulePattern :: cur =>
      if pattern_ok (pattern d) pos then run_rules d res pos cur else Failed
  | RuleMaterial :: cur =>
      if material_key pos =? matKey d then run_rules d res pos cur else Failed
  | RuleWhite :: cur =>
      if bool_decide (side_to_move pos = WHITE) then run_rules d res pos cur
      else Failed
  | RuleBlack :: cur =>
      if bool_decide (side_to_move pos = BLACK) then run_rules d res pos cur
      else Failed
  | RuleResult :: cur =>
      if res =? result d then run_rules d res pos cur else SkipToNext
  | RuleEnd :: _ => Matched
  end.

Section Worker.
Variable d : Data.
Variable rootPos : Position.

(** [*data], with [data] an offset from the base address. *)
Definition peek (data : nat) : Move := baseAddress d data.

(** [while] loop on [*data++ != MOVE_NONE], with an empty body *)
Fixpoint next_game (fuel data : nat) : outcome nat :=
  match fuel with
  | O => Timeout
  | S fuel =>
      if peek data =? MOVE_NONE then Done (S data)
      else next_game fuel (S data)
  end.

(** The loop under [SkipToNext]: [while] on [*++data != MOVE_NONE],
    with body [cnt++]. *)
Fixpoint skip_game (fuel data : nat) (cnt : Z) : outcome (nat * Z) :=
  match fuel with
  | O => Timeout
  | S fuel =>
      if peek (S data) =? MOVE_NONE then Done (S data, cnt)
      else skip_game fuel (S data) (wrap (cnt + 1))
  end.

(** The loop over the moves of one game, [while] on
    [*++data != MOVE_NONE]; [st] counts the elements of
    [states] handed to [do_move] so far. *)
Fixpoint replay (res : GameResult) (fuel data : nat) (pos : Position)
    (st : nat) (cnt matches : Z) : outcome (nat * Z * Z) :=
  match fuel with
  | O => Timeout
  | S fuel =>
      let m := peek (S data) in
      if m =? MOVE_NONE then Done (S data, cnt, matches)
      else if bool_decide (MAX_STATES ≤ st)%nat then Undefined
      else
        let pos := do_move pos m in
        let cnt := wrap (cnt + 1) in
        match run_rules d res pos (rules d) with
        | Failed => replay res fuel (S data) pos (S st) cnt matches
        | OverRun => Undefined
        | SkipToNext =>
            '(data', cnt) ← skip_game fuel (S data) cnt;
            replay res fuel (pred data') pos (S st) cnt matches
        | Matched =>
            let matches := wrap (matches + 1) in
            '(data', cnt) ← skip_game fuel (S data) cnt;
            replay res fuel (pred data') pos (S st) cnt matches
        end
  end.

(** The [while] loop on [*++data == MOVE_NONE && data < end], with an
    empty body. *)
Fixpoint end_of_game (fuel data end_ : nat) : outcome nat :=
  match fuel with
  | O => Timeout
  | S fuel =>
      if (peek (S data) =? MOVE_NONE) && bool_decide (S data < end_)%nat
      then end_of_game fuel (S data) end_
      else Done (S data)
  end.

(** The main loop, [while (data < end) { ... }]. *)
Fixpoint main_loop (fuel data end_ : nat) (cnt matches : Z)
    : outcome (Z * Z) :=
  match fuel with
  | O => Timeout
  | S fuel =>
      if bool_decide (data < end_)%nat then
        let res := to_sq (peek data) in
        '(data, cnt, matches) ← replay res fuel data rootPos 0 cnt matches;
        data ← end_of_game fuel data end_;
        main_loop fuel data end_ cnt matches
      else Done (cnt, matches)
  end.

(** [search] for the thread of index [idx] out of [nthreads]. *)
Definition search (fuel nthreads idx : nat) : outcome Data :=
  if bool_decide (nthreads = 0%nat) then Undefined
  else
    let range := (dbSize d / nthreads)%nat in
    let data := (idx * range)%nat in
    let end_ := if bool_decide (idx = nthreads - 1)%nat then dbSize d
                else (data + range)%nat in
    data ← next_game fuel data;
    '(cnt, matches) ← main_loop fuel data end_ 0 0;
    Done (set_counters cnt matches d).
End Worker.

(** [print_results]: the two sums over the threads. *)
Definition total_moves (ths : list Data) : Z :=
  foldl (λ cnt th, wrap (cnt + movesCnt th)) 0 ths.

Definition total_matches (ths : list Data) : Z :=
  foldl (λ matches th, wrap (matches + matchCnt th)) 0 ths.

(** All the threads of a scan, each on its own copy of the data. *)
Definition scan (fuel nthreads : nat) (rootPos : Position) (d : Data)
    : list (outcome Data) :=
  map (search d rootPos fuel nthreads) (seq 0 nthreads).
End Scan.

(** ** A small instance

    A concrete encoding and a small board engine, used to run the
    definitions: moves are [64 * from + to], a position is a list of
    placed pieces and the side to move. *)
Module Sample.

#[refine] Global Instance encoding : Encoding := {|
  MOVE_NONE := 0;
  to_sq := λ m, Z.land m 63;
  WhiteWin := 0; BlackWin := 1; Draw := 2; Unknown := 3; Invalid := 4
|}.
Proof. by apply (bool_decide_unpack _). Defined.

Record piece := { sq : Z; color : Color; kind : PieceType }.
Record position := { placed : list piece; turn : Color }.

Definition bb (ps : list piece) : Bitboard :=
  foldr (λ p acc, Z.lor (Z.shiftl 1 (sq p)) acc) 0 ps.

Definition weight (c : Color) (pt : PieceType) : Z :=
  let i := match pt with
           | PAWN => 0 | KNIGHT => 1 | BISHOP => 2
           | ROOK => 3 | QUEEN => 4 | KING => 5
           end in
  16 ^ (match c with WHITE => i | BLACK => i + 6 end).

Definition key (ps : list piece) : Key :=
  foldr (λ p acc, weight (color p) (kind p) + acc) 0 ps.

Definition flip (c : Color) : Color :=
  match c with WHITE => BLACK | BLACK => WHITE end.

Definition move (pos : position) (m : Move) : position :=
  let from := Z.land (Z.shiftr m 6) 63 in
  let to := Z.land m 63 in
  {| placed :=
       map (λ p, if sq p =? from
                 then {| sq := to; color := color p; kind := kind p |}
                 else p)
           (filter (λ p, sq p ≠ to) (placed pos));
     turn := flip (turn pos) |}.

Definition piece_of_letter (a : ascii) : option (Color * PieceType) :=
  match a with
  | "P" => Some (WHITE, PAWN) | "N" => Some (WHITE, KNIGHT)
  | "B" => Some (WHITE, BISHOP) | "R" => Some (WHITE, ROOK)
  | "Q" => Some (WHITE, QUEEN) | "K" => Some (WHITE, KING)
  | "p" => Some (BLACK, PAWN) | "n" => Some (BLACK, KNIGHT)
  | "b" => Some (BLACK, BISHOP) | "r" => Some (BLACK, ROOK)
  | "q" => Some (BLACK, QUEEN) | "k" => Some (BLACK, KING)
  | _ => None
  end%char.

Definition digit_of (a : ascii) : option Z :=
  let n := Z.of_nat (nat_of_ascii a) - 48 in
  if (1 <=? n) && (n <=? 8) then Some n else None.

(** The piece-placement field of a FEN, read from rank 8 down. *)
Fixpoint placement (s : string) (rank file : Z) : option (list piece) :=
  match s with
  | EmptyString => Some []
  | String a s =>
      if Ascii.eqb a "/" then placement s (rank - 1) 0
      else match digit_of a with
           | Some n => placement s rank (file + n)
           | None =>
               match piece_of_letter a with
               | Some (c, pt) =>
                   ps ← placement s rank (file + 1);
                   Some ({| sq := 8 * rank + file; color := c; kind := pt |} :: ps)
               | None => None
               end
           end
  end.

Definition of_fen (s : string) : option position :=
  ps ← placement s 7 0; Some {| placed := ps; turn := WHITE |}.

(** A material code such as KBNKP: the pieces of the strong side, then,
    from the second king on, those of the weak side. *)
Fixpoint material (s : string) (kings : nat) (n : Z) : option (list piece) :=
  match s with
  | EmptyString => Some []
  | String a s =>
      match piece_of_letter a with
      | Some (WHITE, pt) =>
          let kings := if bool_decide (pt = KING) then S kings else kings in
          ps ← material s kings (n + 1);
          Some ({| sq := n; color := if bool_decide (kings ≤ 1)%nat then WHITE else BLACK;
                   kind := pt |} :: ps)
      | _ => None
      end
  end.

Definition of_material (s : string) : option position :=
  ps ← material s 0 0; Some {| placed := ps; turn := WHITE |}.

Global Instance engine : Engine := {|
  Position := position;
  do_move := move;
  pieces := λ pos, bb (placed pos);
  pieces_c := λ pos c, bb (filter (λ p, color p = c) (placed pos));
  pieces_pt := λ pos pt, bb (filter (λ p, kind p = pt) (placed pos));
  material_key := λ pos, key (placed pos);
  side_to_move := turn;
  set_fen := of_fen;
  set_material := of_material
|}.

(** A default-constructed [Scout::Data] over the moves [db], followed in
    memory by copies of [beyond]. *)
Definition data_over (db : list Move) (beyond : Move) : Data :=
  {| baseAddress := λ i, default beyond (db !! i);
     dbSize := length db;
     rules := [];
     pattern := {| all := 0; white := 0; pattern_pieces := [] |};
     matKey := 0; result := 0; movesCnt := 0; matchCnt := 0 |}.

Definition mv (from to : Z) : Move := 64 * from + to.

(** The counters of every thread of a scan, or [None] when a thread did
    not finish. *)
Definition counters (fuel nthreads : nat) (rootPos : position) (d : Data)
    : option (list (Z * Z)) :=
  mapM (λ o, match o with
             | Done th => Some (movesCnt th, matchCnt th)
             | _ => None
             end) (scan fuel nthreads rootPos d).
End Sample.

(** * Properties *)

(** ** The compiled program *)

(** The value a query holds for a key: what [json_at] reads when the query
    is an object or null. *)
Definition query_field (j : json) (key : string) : json :=
  match j with
  | JObject m => default JNull (m !! key)
  | _ => JNull
  end.

(** The place of an opcode in the compilation order. *)
Definition rule_rank (r : RuleType) : nat :=
  match r with
  | RulePattern => 0
  | RuleMaterial => 1
  | RuleWhite | RuleBlack => 2
  | RuleResult => 3
  | RuleEnd | RuleNone => 4
  end.

(** The four strings that name a result. *)
Definition result_names : list string := ["1-0"; "0-1"; "1/2-1/2"; "*"].

Section CompilerFacts.
Context `{Encoding, Engine}.

(** The predicate opcodes a query asks for, read off the query. *)
Definition predicate_ops (j : json) : list RuleType :=
  (if json_empty (query_field j "fen") then [] else [RulePattern]) ++
  (if json_empty (query_field j "material") then [] else [RuleMaterial]) ++
  (if json_empty (query_field j "stm") then []
   else [if json_is (query_field j "stm") "WHITE" then RuleWhite else RuleBlack]) ++
  (if json_empty (query_field j "result")
      || (result_of_json (query_field j "result") =? Invalid)
   then [] else [RuleResult]).

Lemma json_at_Done j key v : json_at j key = Done v → v = query_field j key.
Proof. destruct j; simpl; congruence. Qed.

Lemma parse_fen_rules d j d' :
  parse_fen d j = Done d' →
  rules d' = rules d ++
    (if json_empty (query_field j "fen") then [] else [RulePattern]).
Proof.
  unfold parse_fen. destruct (json_at j "fen") as [v| |] eqn:E; simpl; try done.
  apply json_at_Done in E as ->.
  destruct (json_empty _).
  - intros [= <-]. by rewrite app_nil_r.
  - destruct (json_string _) as [s| |]; simpl; try done.
    destruct (set_fen s); try done. by intros [= <-].
Qed.

Lemma parse_material_rules d j d' :
  parse_material d j = Done d' →
  rules d' = rules d ++
    (if json_empty (query_field j "material") then [] else [RuleMaterial]).
Proof.
  unfold parse_material.
  destruct (json_at j "material") as [v| |] eqn:E; simpl; try done.
  apply json_at_Done in E as ->.
  destruct (json_empty _).
  - intros [= <-]. by rewrite app_nil_r.
  - destruct (json_string _) as [s| |]; simpl; try done.
    destruct (set_material s); try done. by intros [= <-].
Qed.

Lemma parse_stm_rules d j d' :
  parse_stm d j = Done d' →
  rules d' = rules d ++
    (if json_empty (query_field j "stm") then []
     else [if json_is (query_field j "stm") "WHITE" then RuleWhite else RuleBlack]).
Proof.
  unfold parse_stm. destruct (json_at j "stm") as [v| |] eqn:E; simpl; try done.
  apply json_at_Done in E as ->.
  destruct (json_empty _); intros [= <-]; [by rewrite app_nil_r | done].
Qed.

Lemma parse_result_rules d j d' :
  parse_result d j = Done d' →
  rules d' = rules d ++
    (if json_empty (query_field j "result")
        || (result_of_json (query_field j "result") =? Invalid)
     then [] else [RuleResult]).
Proof.
  unfold parse_result.
  destruct (json_at j "result") as [v| |] eqn:E; simpl; try done.
  apply json_at_Done in E as ->.
  destruct (json_empty _); simpl.
  - intros [= <-]. by rewrite app_nil_r.
  - destruct (_ =? Invalid); intros [= <-]; [by rewrite app_nil_r | done].
Qed.

(** The rule vector after [parse_rules]: what it held before, the
    predicate opcodes of the query, and one closing opcode. *)
Lemma parse_rules_program d j d' :
  parse_rules d j = Done d' →
  rules d' = rules d ++ predicate_ops j ++
    [if bool_decide (rules d ++ predicate_ops j = []) then RuleNone
     else RuleEnd].
Proof.
  unfold parse_rules.
  destruct (parse_fen d j) as [d1| |] eqn:E1; simpl; try done.
  destruct (parse_material d1 j) as [d2| |] eqn:E2; simpl; try done.
  destruct (parse_stm d2 j) as [d3| |] eqn:E3; simpl; try done.
  destruct (parse_result d3 j) as [d4| |] eqn:E4; simpl; try done.
  intros [= <-]. simpl.
  apply parse_fen_rules in E1. apply parse_material_rules in E2.
  apply parse_stm_rules in E3. apply parse_result_rules in E4.
  assert (rules d4 = rules d ++ predicate_ops j) as ->; [|by rewrite <-app_assoc].
  rewrite E4, E3, E2, E1. unfold predicate_ops. by rewrite <-!app_assoc.
Qed.

Lemma named_results_valid :
  WhiteWin ≠ Invalid ∧ BlackWin ≠ Invalid ∧ Draw ≠ Invalid ∧ Unknown ≠ Invalid.
Proof.
  pose proof results_distinct as ND.
  rewrite !NoDup_cons, !elem_of_cons in ND.
  destruct ND as (N1 & N2 & N3 & N4 & _).
  repeat split; intros E; [apply N1 | apply N2 | apply N3 | apply N4]; auto.
Qed.

Lemma result_of_json_recognized v :
  result_of_json v ≠ Invalid ↔ ∃ s, s ∈ result_names ∧ v = JString s.
Proof.
  destruct named_results_valid as (N1 & N2 & N3 & N4).
  unfold result_of_json, json_is, result_names.
  destruct v as [|b|n|s|l|m];
    try (split; [intros E; by destruct E | intros (s' & _ & [=])]).
  repeat case_bool_decide; subst;
    try (split; [intros _; eexists; split; [|done];
                 rewrite !elem_of_cons; auto | done]).
  split; [done|]. intros (s' & Hs & [= ->]).
  rewrite !elem_of_cons, elem_of_nil in Hs.
  by destruct Hs as [->|[->|[->|[->|[]]]]].
Qed.
End CompilerFacts.

Section CompilerClaims.
Context `{Encoding, Engine}.

Lemma json_is_true v s : json_is v s = true ↔ v = JString s.
Proof.
  destruct v; simpl; try (split; [done | intros [=]]).
  rewrite bool_decide_eq_true. split; [by intros -> | by intros [= ->]].
Qed.

Lemma result_test v :
  (result_of_json v =? Invalid) = false ↔
  ∃ s, s ∈ result_names ∧ v = JString s.
Proof. by rewrite Z.eqb_neq, result_of_json_recognized. Qed.

Lemma predicate_ops_sorted j :
  StronglySorted (λ a b, rule_rank a < rule_rank b)%nat (predicate_ops j).
Proof.
  unfold predicate_ops.
  repeat match goal with
         | |- context [if ?b then _ else _] => destruct b
         end; simpl;
    repeat (constructor; simpl; try lia).
Qed.

Lemma elem_of_predicate_ops j r :
  r ∈ predicate_ops j ↔
    (r = RulePattern ∧ json_empty (query_field j "fen") = false)
    ∨ (r = RuleMaterial ∧ json_empty (query_field j "material") = false)
    ∨ (r = (if json_is (query_field j "stm") "WHITE" then RuleWhite
            else RuleBlack)
       ∧ json_empty (query_field j "stm") = false)
    ∨ (r = RuleResult
       ∧ json_empty (query_field j "result") = false
       ∧ (result_of_json (query_field j "result") =? Invalid) = false).
Proof.
  unfold predicate_ops. rewrite !elem_of_app.
  destruct (json_empty (query_field j "fen"));
    destruct (json_empty (query_field j "material"));
    destruct (json_empty (query_field j "stm"));
    destruct (json_empty (query_field j "result"));
    destruct (result_of_json (query_field j "result") =? Invalid);
    simpl; rewrite ?elem_of_cons, ?elem_of_nil; intuition discriminate.
Qed.

Lemma predicate_ops_not_closing j :
  Forall (λ r, r ≠ RuleEnd ∧ r ≠ RuleNone) (predicate_ops j).
Proof.
  apply Forall_forall. intros r. rewrite elem_of_predicate_ops.
  destruct (json_is _ _); intuition (subst; discriminate).
Qed.

(** C6: compiling a query into a data whose rule vector is empty gives
    the predicate opcodes in the order pattern, material, side to move,
    result, each at most once and each exactly when its field is
    recognized, followed by one last opcode: RuleEnd when a predicate
    opcode was emitted, RuleNone when none was. *)
Theorem compiled_program_order d j d' :
  rules d = [] →
  parse_rules d j = Done d' →
  ∃ ops,
    rules d' = ops ++ [if bool_decide (ops = []) then RuleNone else RuleEnd]
    ∧ StronglySorted (λ a b, rule_rank a < rule_rank b)%nat ops
    ∧ Forall (λ r, r ≠ RuleEnd ∧ r ≠ RuleNone) ops
    ∧ (RulePattern ∈ ops ↔ json_empty (query_field j "fen") = false)
    ∧ (RuleMaterial ∈ ops ↔ json_empty (query_field j "material") = false)
    ∧ (RuleWhite ∈ ops ↔
         json_empty (query_field j "stm") = false
         ∧ query_field j "stm" = JString "WHITE")
    ∧ (RuleBlack ∈ ops ↔
         json_empty (query_field j "stm") = false
         ∧ query_field j "stm" ≠ JString "WHITE")
    ∧ (RuleResult ∈ ops ↔
         ∃ s, s ∈ result_names ∧ query_field j "result" = JString s).
Proof.
  intros Hd Hp. apply parse_rules_program in Hp. rewrite Hd in Hp. simpl in Hp.
  exists (predicate_ops j). split; [done|]. split; [apply predicate_ops_sorted|].
  split; [apply predicate_ops_not_closing|].
  rewrite !elem_of_predicate_ops.
  pose proof (json_is_true (query_field j "stm") "WHITE") as Hw.
  pose proof (result_test (query_field j "result")) as Hr.
  assert ((∃ s, s ∈ result_names ∧ query_field j "result" = JString s) →
          json_empty (query_field j "result") = false) as Hs.
  { by intros (s & _ & ->). }
  destruct (json_is (query_field j "stm") "WHITE");
    repeat split; try (intuition discriminate).
Qed.

Lemma json_at_insert_ne (m : gmap string json) key key' v :
  key ≠ key' →
  json_at (JObject (<[key := v]> m)) key' = json_at (JObject (delete key m)) key'.
Proof. intros Hk. simpl. by rewrite lookup_insert_ne, lookup_delete_ne. Qed.

Lemma parse_fen_insert_ne d m key v :
  key ≠ "fen" →
  parse_fen d (JObject (<[key := v]> m)) = parse_fen d (JObject (delete key m)).
Proof. intros Hk. unfold parse_fen. by rewrite json_at_insert_ne. Qed.

Lemma parse_material_insert_ne d m key v :
  key ≠ "material" →
  parse_material d (JObject (<[key := v]> m))
  = parse_material d (JObject (delete key m)).
Proof. intros Hk. unfold parse_material. by rewrite json_at_insert_ne. Qed.

Lemma parse_stm_insert_ne d m key v :
  key ≠ "stm" →
  parse_stm d (JObject (<[key := v]> m)) = parse_stm d (JObject (delete key m)).
Proof. intros Hk. unfold parse_stm. by rewrite json_at_insert_ne. Qed.

Lemma unrecognized_result_Invalid v :
  (∀ s, s ∈ result_names → v ≠ JString s) → result_of_json v = Invalid.
Proof.
  intros Hv. destruct (decide (result_of_json v = Invalid)) as [|Hn]; [done|].
  apply result_of_json_recognized in Hn as (s & Hs & ->). by destruct (Hv s Hs).
Qed.

(** C8: a "result" field whose value is none of the four result strings
    leaves the compiler's outcome, program and errors alike, as it is
    for the query without that field. *)
Theorem unrecognized_result_ignored d (m : gmap string json) (v : json) :
  (∀ s, s ∈ result_names → v ≠ JString s) →
  parse_rules d (JObject (<["result" := v]> m))
  = parse_rules d (JObject (delete "result" m)).
Proof.
  intros Hv. unfold parse_rules.
  rewrite parse_fen_insert_ne by done.
  destruct (parse_fen _ _) as [d1| |]; simpl; try done.
  rewrite parse_material_insert_ne by done.
  destruct (parse_material _ _) as [d2| |]; simpl; try done.
  rewrite parse_stm_insert_ne by done.
  destruct (parse_stm _ _) as [d3| |]; simpl; try done.
  unfold parse_result. simpl.
  rewrite lookup_insert_eq, lookup_delete_eq. simpl.
  rewrite (unrecognized_result_Invalid v Hv), Z.eqb_refl.
  by destruct (json_empty v).
Qed.

Lemma query_field_Some (m : gmap string json) key v :
  m !! key = Some v → query_field (JObject m) key = v.
Proof. intros Hm. unfold query_field. by rewrite Hm. Qed.

Lemma parse_stm_black d (m : gmap string json) (v : json) :
  m !! "stm" = Some v → json_empty v = false → v ≠ JString "WHITE" →
  parse_stm d (JObject m) = Done (push_rule RuleBlack d).
Proof.
  intros Hm He Hv. unfold parse_stm. simpl. rewrite Hm. simpl. rewrite He.
  destruct (json_is v "WHITE") eqn:E; [|done].
  by apply json_is_true in E.
Qed.

Lemma parse_stm_Done d m : ∃ d', parse_stm d (JObject m) = Done d'.
Proof. unfold parse_stm. simpl. destruct (json_empty _); eauto. Qed.

Lemma parse_result_Done d m : ∃ d', parse_result d (JObject m) = Done d'.
Proof.
  unfold parse_result. simpl. destruct (json_empty _); eauto.
  destruct (_ =? Invalid); eauto.
Qed.

(** C9: a non-empty "stm" value other than the string WHITE makes the
    side-to-move step emit RuleBlack and never fail; the compiled program
    holds RuleBlack, after at most the pattern and material opcodes, and
    the query compiles exactly when it does without the "stm" field. *)
Theorem stm_not_WHITE_emits_black d (m : gmap string json) (v : json) :
  m !! "stm" = Some v → json_empty v = false → v ≠ JString "WHITE" →
  parse_stm d (JObject m) = Done (push_rule RuleBlack d)
  ∧ (∀ d', parse_rules d (JObject m) = Done d' →
       ∃ pre post, rules d' = rules d ++ pre ++ RuleBlack :: post
         ∧ Forall (λ r, r = RulePattern ∨ r = RuleMaterial) pre)
  ∧ ((∃ d', parse_rules d (JObject m) = Done d')
     ↔ (∃ d', parse_rules d (JObject (delete "stm" m)) = Done d')).
Proof.
  intros Hm He Hv. split; [by apply (parse_stm_black d m v)|]. split.
  - intros d' Hp. apply parse_rules_program in Hp. rewrite Hp.
    unfold predicate_ops. rewrite (query_field_Some m "stm" v Hm), He.
    destruct (json_is v "WHITE") eqn:E; [by apply json_is_true in E|].
    match goal with
    | |- context [(?A ++ ?B ++ [RuleBlack] ++ ?C) ++ ?T] =>
        exists (A ++ B), (C ++ T)
    end.
    split; [by rewrite <-!app_assoc|].
    apply Forall_app.
    split;
      [destruct (json_empty (query_field (JObject m) "fen"))
      |destruct (json_empty (query_field (JObject m) "material"))];
      first [apply Forall_nil_2 | apply Forall_singleton; auto].
  - replace (parse_rules d (JObject m))
      with (parse_rules d (JObject (<["stm":=v]> m)))
      by (by rewrite insert_id).
    unfold parse_rules.
    rewrite parse_fen_insert_ne by done.
    destruct (parse_fen _ _) as [d1| |]; simpl; [|by split; intros [? [=]]..].
    rewrite parse_material_insert_ne by done.
    destruct (parse_material _ _) as [d2| |]; simpl;
      [|by split; intros [? [=]]..].
    destruct (parse_stm d2 (JObject (<["stm":=v]> m))) as [d3| |] eqn:E3.
    2,3: destruct (parse_stm_Done d2 (<["stm":=v]> m)); congruence.
    destruct (parse_stm d2 (JObject (delete "stm" m))) as [d3'| |] eqn:E3'.
    2,3: destruct (parse_stm_Done d2 (delete "stm" m)); congruence.
    simpl.
    destruct (parse_result_Done d3 (<["stm":=v]> m)) as [d4 ->].
    destruct (parse_result_Done d3' (delete "stm" m)) as [d4' ->].
    simpl. split; eauto.
Qed.

(** The compiler on a query without any of the four fields. *)
Lemma parse_rules_no_field d (m : gmap string json) :
  rules d = [] →
  m !! "fen" = None → m !! "material" = None →
  m !! "stm" = None → m !! "result" = None →
  parse_rules d (JObject m) = Done (push_rule RuleNone d).
Proof.
  intros Hd Hf Hm Hs Hr.
  assert (parse_fen d (JObject m) = Done d) as E1.
  { unfold parse_fen, json_at. by rewrite Hf. }
  assert (parse_material d (JObject m) = Done d) as E2.
  { unfold parse_material, json_at. by rewrite Hm. }
  assert (parse_stm d (JObject m) = Done d) as E3.
  { unfold parse_stm, json_at. by rewrite Hs. }
  assert (parse_result d (JObject m) = Done d) as E4.
  { unfold parse_result, json_at. by rewrite Hr. }
  unfold parse_rules.
  rewrite E1, bind_Done, E2, bind_Done, E3, bind_Done, E4, bind_Done.
  by rewrite Hd.
Qed.
End CompilerClaims.

(** ** Games in memory *)

(** A game record: the result marker and the moves played. *)
Record Game := { marker : Move; moves : list Move }.

(** [n] executions of [cnt++] on a [size_t]. *)
Definition incr (n : nat) (cnt : Z) : Z := Nat.iter n (λ c, wrap (c + 1)) cnt.

(** The memory [mem] holds the moves [xs] from offset [k] on. *)
Definition holds (mem : nat → Move) (k : nat) (xs : list Move) : Prop :=
  ∀ i x, xs !! i = Some x → mem (k + i)%nat = x.

Section Games.
Context `{Encoding, Engine}.

Definition encode (g : Game) : list Move := marker g :: moves g ++ [MOVE_NONE].

Definition database (gs : list Game) : list Move := concat (map encode gs).

(** A record as the scan expects it: only its last move is the sentinel,
    and its moves fit the state buffer. *)
Definition game_ok (g : Game) : Prop :=
  marker g ≠ MOVE_NONE
  ∧ Forall (λ m, m ≠ MOVE_NONE) (moves g)
  ∧ (length (moves g) ≤ MAX_STATES)%nat.

(** The data maps the database made of the games [gs]. *)
Definition maps_database (d : Data) (gs : list Game) : Prop :=
  dbSize d = length (database gs) ∧ holds (baseAddress d) 0 (database gs).

(** Every move of [ms], played in turn from [pos], leaves the rule loop
    at [Failed]. *)
Fixpoint all_failed (d : Data) (res : GameResult) (pos : Position)
    (ms : list Move) : bool :=
  match ms with
  | [] => true
  | m :: ms =>
      bool_decide (run_rules d res (do_move pos m) (rules d) = Failed)
      && all_failed d res (do_move pos m) ms
  end.

(** The first verdict other than [Failed] met along the moves [ms], and
    the number of moves handed to [do_move] until then. *)
Fixpoint game_verdict (d : Data) (res : GameResult) (pos : Position)
    (ms : list Move) : verdict :=
  match ms with
  | [] => Failed
  | m :: ms =>
      match run_rules d res (do_move pos m) (rules d) with
      | Failed => game_verdict d res (do_move pos m) ms
      | v => v
      end
  end.

Fixpoint applied (d : Data) (res : GameResult) (pos : Position)
    (ms : list Move) : nat :=
  match ms with
  | [] => 0
  | m :: ms =>
      match run_rules d res (do_move pos m) (rules d) with
      | Failed => S (applied d res (do_move pos m) ms)
      | _ => 1
      end
  end.

(** The match counter after a game whose verdict is [v]. *)
Definition credit (v : verdict) (matches : Z) : Z :=
  if bool_decide (v = Matched) then wrap (matches + 1) else matches.

(** The main loop read off the list of games: the games that start
    below [end_], [p] being the offset of the first one. *)
Fixpoint scan_games (d : Data) (rootPos : Position) (end_ p : nat)
    (gs : list Game) (cnt matches : Z) : Z * Z :=
  match gs with
  | [] => (cnt, matches)
  | g :: gs =>
      if bool_decide (p < end_)%nat then
        scan_games d rootPos end_ (p + length (encode g)) gs
          (incr (length (moves g)) cnt)
          (credit (game_verdict d (to_sq (marker g)) rootPos (moves g)) matches)
      else (cnt, matches)
  end.
End Games.

(** ** Replaying a game *)

Section HoldsFacts.
Implicit Types (mem : nat → Move) (xs ys : list Move).

Lemma holds_cons mem k x xs :
  holds mem k (x :: xs) ↔ mem k = x ∧ holds mem (S k) xs.
Proof.
  unfold holds. split.
  - intros Hh. split.
    + rewrite <-(Nat.add_0_r k). by apply Hh.
    + intros i y Hi. rewrite Nat.add_succ_comm. by apply Hh.
  - intros [Hk Hh] [|i] y Hi; simpl in Hi.
    + rewrite Nat.add_0_r. congruence.
    + rewrite <-Nat.add_succ_comm. by apply Hh.
Qed.

Lemma holds_app mem k xs ys :
  holds mem k (xs ++ ys) ↔ holds mem k xs ∧ holds mem (k + length xs) ys.
Proof.
  revert k. induction xs as [|x xs IH]; intros k; simpl.
  - rewrite Nat.add_0_r. unfold holds at 2. by intuition.
  - rewrite !holds_cons, IH, <-Nat.add_succ_comm. tauto.
Qed.

Lemma incr_S n cnt : incr n (wrap (cnt + 1)) = incr (S n) cnt.
Proof. unfold incr. by rewrite Nat.iter_succ_r. Qed.

Lemma incr_add a b cnt : incr b (incr a cnt) = incr (a + b) cnt.
Proof. unfold incr. by rewrite Nat.add_comm, Nat.iter_add. Qed.

Lemma wrap_idemp n : wrap (wrap n) = wrap n.
Proof. unfold wrap. by rewrite Z.mod_mod. Qed.

Lemma incr_wrap n cnt : (0 < n)%nat → incr n cnt = wrap (cnt + Z.of_nat n).
Proof.
  induction n as [|n IH]; [lia|]. intros _. unfold incr in *. simpl.
  destruct n as [|n]; [done|].
  rewrite IH by lia. unfold wrap.
  rewrite Zplus_mod_idemp_l. f_equal. lia.
Qed.
End HoldsFacts.

Section ReplayFacts.
Context `{Encoding, Engine}.
Variable d : Data.

(** A rule vector in which the rule loop meets a closing opcode. *)
Definition terminated (rs : list RuleType) : Prop :=
  RuleEnd ∈ rs ∨ RuleNone ∈ rs.

Lemma run_rules_terminated res pos rs :
  terminated rs → run_rules d res pos rs ≠ OverRun.
Proof.
  unfold terminated. induction rs as [|r rs IH]; intros Ht.
  - destruct Ht as [Ht|Ht]; by apply elem_of_nil in Ht.
  - assert (r = RuleEnd ∨ r = RuleNone ∨ terminated rs) as Hr.
    { unfold terminated. rewrite !elem_of_cons in Ht. intuition. }
    destruct r; simpl; try done;
      (destruct Hr as [?|[?|Hr]]; [done..|]);
      repeat case_match; try done; by apply IH.
Qed.

Lemma compiled_terminated d0 j :
  parse_rules d0 j = Done d → terminated (rules d).
Proof.
  intros Hp. apply parse_rules_program in Hp. unfold terminated.
  rewrite Hp, !elem_of_app, !elem_of_cons.
  case_bool_decide; auto.
Qed.

Lemma replay_eq res fuel data pos st cnt matches :
  replay d res (S fuel) data pos st cnt matches =
  if peek d (S data) =? MOVE_NONE then Done (S data, cnt, matches)
  else if bool_decide (MAX_STATES ≤ st)%nat then Undefined
  else
    match run_rules d res (do_move pos (peek d (S data))) (rules d) with
    | Failed =>
        replay d res fuel (S data) (do_move pos (peek d (S data))) (S st)
          (wrap (cnt + 1)) matches
    | OverRun => Undefined
    | SkipToNext =>
        '(data', cnt') ← skip_game d fuel (S data) (wrap (cnt + 1));
        replay d res fuel (pred data') (do_move pos (peek d (S data))) (S st)
          cnt' matches
    | Matched =>
        '(data', cnt') ← skip_game d fuel (S data) (wrap (cnt + 1));
        replay d res fuel (pred data') (do_move pos (peek d (S data))) (S st)
          cnt' (wrap (matches + 1))
    end.
Proof. reflexivity. Qed.

Lemma skip_game_spec ms : ∀ fuel data cnt,
  holds (baseAddress d) (S data) (ms ++ [MOVE_NONE]) →
  Forall (λ m, m ≠ MOVE_NONE) ms →
  (length ms < fuel)%nat →
  skip_game d fuel data cnt
  = Done ((S data + length ms)%nat, incr (length ms) cnt).
Proof.
  induction ms as [|m ms IH]; intros fuel data cnt Hh Hms Hf;
    (destruct fuel as [|fuel]; [simpl in Hf; lia|]); simpl in Hh.
  - apply holds_cons in Hh as [Hp _]. simpl. unfold peek. rewrite Hp, Z.eqb_refl.
    by rewrite Nat.add_0_r.
  - apply holds_cons in Hh as [Hp Hh]. apply Forall_cons in Hms as [Hm Hms].
    simpl. unfold peek. rewrite Hp. apply Z.eqb_neq in Hm as ->.
    rewrite (IH fuel (S data) _ Hh Hms) by (simpl in Hf; lia).
    rewrite incr_S. simpl. do 2 f_equal. lia.
Qed.

(** Replaying one game from its result marker at offset [data]. *)
Lemma replay_spec res ms : ∀ fuel data pos st cnt matches,
  terminated (rules d) →
  holds (baseAddress d) (S data) (ms ++ [MOVE_NONE]) →
  Forall (λ m, m ≠ MOVE_NONE) ms →
  (st + applied d res pos ms ≤ MAX_STATES)%nat →
  (length ms + 2 ≤ fuel)%nat →
  replay d res fuel data pos st cnt matches
  = Done ((S data + length ms)%nat, incr (length ms) cnt,
          credit (game_verdict d res pos ms) matches).
Proof.
  induction ms as [|m ms IH]; intros fuel data pos st cnt matches Ht Hh Hms Hst Hf;
    (destruct fuel as [|fuel]; [simpl in Hf; lia|]); rewrite replay_eq;
    simpl in Hh.
  - apply holds_cons in Hh as [Hp _]. unfold peek. rewrite Hp, Z.eqb_refl.
    by rewrite Nat.add_0_r.
  - pose proof Hh as Hall.
    apply holds_cons in Hh as [Hp Hh]. apply Forall_cons in Hms as [Hm Hms].
    unfold peek. rewrite Hp. apply Z.eqb_neq in Hm as ->.
    simpl in Hst, Hf.
    pose proof (run_rules_terminated res (do_move pos m) _ Ht) as Hover.
    assert (baseAddress d (S (S (data + length ms))) = MOVE_NONE) as Hend.
    { change (m :: ms ++ [MOVE_NONE]) with ((m :: ms) ++ [MOVE_NONE]) in Hall.
      apply holds_app in Hall as [_ Hall]. apply holds_cons in Hall as [Hall _].
      simpl in Hall. rewrite <-Hall. f_equal. lia. }
    destruct (run_rules d res (do_move pos m) (rules d)) eqn:Ev; [| | |done].
    + rewrite bool_decide_eq_false_2 by lia.
      rewrite (IH fuel (S data) _ (S st)); [|done|done|done|lia|lia].
      rewrite incr_S. simpl game_verdict. simpl length. rewrite Ev.
      by replace (S data + S (length ms))%nat
        with (S (S data) + length ms)%nat by lia.
    + rewrite bool_decide_eq_false_2 by lia.
      rewrite (skip_game_spec ms fuel (S data) _ Hh Hms) by lia.
      rewrite bind_Done. simpl pred.
      destruct fuel as [|fuel]; [lia|]. rewrite replay_eq.
      unfold peek. rewrite Hend, Z.eqb_refl, incr_S.
      simpl game_verdict. simpl length. rewrite Ev.
      by replace (S data + S (length ms))%nat
        with (S (S (data + length ms)))%nat by lia.
    + rewrite bool_decide_eq_false_2 by lia.
      rewrite (skip_game_spec ms fuel (S data) _ Hh Hms) by lia.
      rewrite bind_Done. simpl pred.
      destruct fuel as [|fuel]; [lia|]. rewrite replay_eq.
      unfold peek. rewrite Hend, Z.eqb_refl, incr_S.
      simpl game_verdict. simpl length. rewrite Ev.
      by replace (S data + S (length ms))%nat
        with (S (S (data + length ms)))%nat by lia.
Qed.
End ReplayFacts.

(** ** Verdicts along a game *)

(** Every bit set in [b] is set in [a]. *)
Definition contains (a b : Bitboard) : Prop :=
  ∀ i, Z.testbit b i = true → Z.testbit a i = true.

Section VerdictFacts.
Context `{Encoding, Engine}.
Variable d : Data.

(** The test one predicate opcode makes on a position. *)
Definition rule_passes (res : GameResult) (pos : Position) (r : RuleType)
    : bool :=
  match r with
  | RulePattern => pattern_ok (pattern d) pos
  | RuleMaterial => material_key pos =? matKey d
  | RuleWhite => bool_decide (side_to_move pos = WHITE)
  | RuleBlack => bool_decide (side_to_move pos = BLACK)
  | RuleResult => res =? result d
  | RuleEnd | RuleNone => false
  end.

Lemma land_contains a b : Z.land a b = b ↔ contains a b.
Proof.
  unfold contains. split.
  - intros E i Hb. rewrite <-E, Z.land_spec in Hb.
    by apply andb_true_iff in Hb as [? _].
  - intros Hc. apply Z.bits_inj. intros i. rewrite Z.land_spec.
    destruct (Z.testbit b i) eqn:Eb; [by rewrite Hc | apply andb_false_r].
Qed.

Lemma run_rules_passes res pos pre cur :
  Forall (λ r, rule_passes res pos r = true) pre →
  run_rules d res pos (pre ++ cur) = run_rules d res pos cur.
Proof.
  induction 1 as [|r pre Hr _ IH]; [done|].
  destruct r; simpl in *; try done; by rewrite Hr.
Qed.

Lemma run_rules_skip res pos cur :
  run_rules d res pos cur = SkipToNext → res ≠ result d ∧ RuleResult ∈ cur.
Proof.
  induction cur as [|r cur IH]; [done|].
  destruct r; simpl; try done;
    (match goal with
     | |- (if ?c then _ else _) = _ → _ => destruct c eqn:E
     end);
    try done;
    try (intros Hs; destruct (IH Hs); split;
         [done | by apply list_elem_of_further]).
  intros _. apply Z.eqb_neq in E. split; [done | apply list_elem_of_here].
Qed.

Lemma applied_le res ms : ∀ pos, (applied d res pos ms ≤ length ms)%nat.
Proof.
  induction ms as [|m ms IH]; intros pos; simpl; [lia|].
  specialize (IH (do_move pos m)). case_match; lia.
Qed.

Lemma credit_cases v matches :
  credit v matches = matches ∨ credit v matches = wrap (matches + 1).
Proof. unfold credit. case_bool_decide; auto. Qed.

(** The first move whose verdict is not [Failed] decides the game. *)
Lemma first_verdict res ms1 m ms2 v : ∀ pos,
  all_failed d res pos ms1 = true →
  run_rules d res (do_move (foldl do_move pos ms1) m) (rules d) = v →
  v ≠ Failed →
  game_verdict d res pos (ms1 ++ m :: ms2) = v
  ∧ applied d res pos (ms1 ++ m :: ms2) = S (length ms1).
Proof.
  induction ms1 as [|m1 ms1 IH]; intros pos Ha Hv Hn; simpl in *.
  - rewrite Hv. by destruct v.
  - apply andb_true_iff in Ha as [Hf Ha]. apply bool_decide_eq_true in Hf.
    rewrite Hf. destruct (IH _ Ha Hv Hn) as [-> ->]. done.
Qed.
Lemma all_failed_verdict res ms : ∀ pos,
  all_failed d res pos ms = true → game_verdict d res pos ms = Failed.
Proof.
  induction ms as [|m ms IH]; intros pos Ha; [done|]. simpl in *.
  apply andb_true_iff in Ha as [Hf Ha]. apply bool_decide_eq_true in Hf.
  rewrite Hf. by apply IH.
Qed.
End VerdictFacts.

Section ReplayClaims.
Context `{Encoding, Engine}.

(** C1, as the code has it: the pattern test succeeds exactly when every
    square of each mask of the pattern (all pieces, white pieces, each
    listed piece type) is occupied in the corresponding mask of the
    position; squares occupied beyond the pattern do not matter. *)
Theorem pattern_matches_iff_contained (p : Pattern) (pos : Position) :
  pattern_ok p pos = true ↔
    contains (pieces pos) (all p)
    ∧ contains (pieces_c pos WHITE) (white p)
    ∧ Forall (λ q, contains (pieces_pt pos q.1) q.2) (pattern_pieces p).
Proof.
  unfold pattern_ok.
  rewrite !andb_true_iff, !Z.eqb_eq, !land_contains, forallb_forall.
  rewrite Forall_forall.
  setoid_rewrite <-list_elem_of_In. setoid_rewrite Z.eqb_eq.
  setoid_rewrite land_contains. tauto.
Qed.

(** C4: replaying a game under a compiled program leaves the data pointer
    on the game's sentinel and adds at most one to the match counter.  It
    adds exactly one as soon as, at some position, every opcode before the
    program's RuleEnd passes (the rule loop then reaches RuleEnd), whatever
    the moves after it, and nothing when every move leaves the rule loop
    at Failed. *)
Theorem one_match_per_game d0 j d res ms fuel data pos cnt matches :
  parse_rules d0 j = Done d →
  holds (baseAddress d) (S data) (ms ++ [MOVE_NONE]) →
  Forall (λ m, m ≠ MOVE_NONE) ms →
  (length ms ≤ MAX_STATES)%nat →
  (length ms + 2 ≤ fuel)%nat →
  ∃ matches',
    replay d res fuel data pos 0 cnt matches
    = Done ((S data + length ms)%nat, incr (length ms) cnt, matches')
    ∧ (matches' = matches ∨ matches' = wrap (matches + 1))
    ∧ (∀ ms1 m ms2 pre post,
         ms = ms1 ++ m :: ms2 →
         all_failed d res pos ms1 = true →
         rules d = pre ++ RuleEnd :: post →
         Forall (λ r, rule_passes d res (do_move (foldl do_move pos ms1) m) r
                      = true) pre →
         matches' = wrap (matches + 1))
    ∧ (∀ ms1 m ms2,
         ms = ms1 ++ m :: ms2 →
         all_failed d res pos ms1 = true →
         run_rules d res (do_move (foldl do_move pos ms1) m) (rules d)
         = Matched →
         matches' = wrap (matches + 1))
    ∧ (all_failed d res pos ms = true → matches' = matches).
Proof.
  intros Hp Hh Hms Hlen Hf.
  eexists. split; [|split; [|split; [|split]]].
  - apply replay_spec; try done.
    + by eapply compiled_terminated.
    + pose proof (applied_le d res ms pos). lia.
  - apply credit_cases.
  - intros ms1 m ms2 pre post -> Ha Hr Hpre.
    assert (run_rules d res (do_move (foldl do_move pos ms1) m) (rules d)
            = Matched) as Hv.
    { rewrite Hr. by rewrite run_rules_passes. }
    by destruct (first_verdict d res ms1 m ms2 Matched pos Ha Hv) as [-> _].
  - intros ms1 m ms2 -> Ha Hv.
    by destruct (first_verdict d res ms1 m ms2 Matched pos Ha Hv) as [-> _].
  - intros Ha. by rewrite (all_failed_verdict d res ms pos Ha).
Qed.
End ReplayClaims.

Section AbandonClaims.
Context `{Encoding, Engine}.

(** The predicate opcodes other than the result match. *)
Definition move_level (r : RuleType) : Prop :=
  r = RulePattern ∨ r = RuleMaterial ∨ r = RuleWhite ∨ r = RuleBlack.

Lemma replay_abandoned d res ms1 m ms2 v fuel data pos cnt matches :
  terminated (rules d) →
  holds (baseAddress d) (S data) ((ms1 ++ m :: ms2) ++ [MOVE_NONE]) →
  Forall (λ m, m ≠ MOVE_NONE) (ms1 ++ m :: ms2) →
  (length ms1 < MAX_STATES)%nat →
  (length (ms1 ++ m :: ms2) + 2 ≤ fuel)%nat →
  all_failed d res pos ms1 = true →
  run_rules d res (do_move (foldl do_move pos ms1) m) (rules d) = v →
  v ≠ Failed →
  replay d res fuel data pos 0 cnt matches
  = Done ((S data + length (ms1 ++ m :: ms2))%nat,
          incr (length (ms1 ++ m :: ms2)) cnt, credit v matches).
Proof.
  intros Ht Hh Hms Hlen Hf Ha Hv Hn.
  destruct (first_verdict d res ms1 m ms2 v pos Ha Hv Hn) as [Eg Ea].
  rewrite <-Eg. apply replay_spec; try done. rewrite Ea. simpl. lia.
Qed.

(** C5: the rule loop leaves at SkipToNext only through a failed result
    match, and leaves at Failed when the first failing opcode is any
    other predicate; a SkipToNext verdict ends the replay of the game on
    its sentinel with the match counter unchanged, while a Failed verdict
    makes the replay go on with the next move of the same game. *)
Theorem result_mismatch_abandons_game d0 j d res :
  parse_rules d0 j = Done d →
  (∀ pos cur,
     run_rules d res pos cur = SkipToNext → res ≠ result d ∧ RuleResult ∈ cur)
  ∧ (∀ pos pre post,
       Forall (λ r, rule_passes d res pos r = true) pre →
       res ≠ result d →
       run_rules d res pos (pre ++ RuleResult :: post) = SkipToNext)
  ∧ (∀ pos pre r post,
       Forall (λ r, rule_passes d res pos r = true) pre →
       move_level r → rule_passes d res pos r = false →
       run_rules d res pos (pre ++ r :: post) = Failed)
  ∧ (∀ fuel data pos cnt matches ms1 m ms2,
       holds (baseAddress d) (S data) ((ms1 ++ m :: ms2) ++ [MOVE_NONE]) →
       Forall (λ m, m ≠ MOVE_NONE) (ms1 ++ m :: ms2) →
       (length ms1 < MAX_STATES)%nat →
       (length (ms1 ++ m :: ms2) + 2 ≤ fuel)%nat →
       all_failed d res pos ms1 = true →
       run_rules d res (do_move (foldl do_move pos ms1) m) (rules d)
       = SkipToNext →
       replay d res fuel data pos 0 cnt matches
       = Done ((S data + length (ms1 ++ m :: ms2))%nat,
               incr (length (ms1 ++ m :: ms2)) cnt, matches))
  ∧ (∀ fuel data pos st cnt matches,
       peek d (S data) ≠ MOVE_NONE →
       (st < MAX_STATES)%nat →
       run_rules d res (do_move pos (peek d (S data))) (rules d) = Failed →
       replay d res (S fuel) data pos st cnt matches
       = replay d res fuel (S data) (do_move pos (peek d (S data))) (S st)
           (wrap (cnt + 1)) matches).
Proof.
  intros Hp. repeat split.
  - by destruct (run_rules_skip d res pos cur).
  - by destruct (run_rules_skip d res pos cur).
  - intros pos pre post Hpre Hne. rewrite run_rules_passes by done. simpl.
    by apply Z.eqb_neq in Hne as ->.
  - intros pos pre r post Hpre Hr Hf. rewrite run_rules_passes by done.
    destruct Hr as [-> | [-> | [-> | ->]]]; simpl in *; by rewrite Hf.
  - intros fuel data pos cnt matches ms1 m ms2 Hh Hms Hlen Hfuel Ha Hv.
    by rewrite (replay_abandoned d res ms1 m ms2 SkipToNext)
      by (done || by eapply compiled_terminated).
  - intros fuel data pos st cnt matches Hm Hst Hv.
    rewrite replay_eq, Hv. apply Z.eqb_neq in Hm as ->.
    by rewrite bool_decide_eq_false_2 by lia.
Qed.

(** C10: when a move's verdict is Matched or SkipToNext, the loop that
    skips to the sentinel adds one to the move counter for every move it
    passes, so the replay of the game counts all its moves; the skipped
    moves use no state of the buffer, only the moves up to the verdict
    have to fit it. *)
Theorem skipped_moves_are_counted d0 j d res fuel data pos cnt matches
    ms1 m ms2 :
  parse_rules d0 j = Done d →
  holds (baseAddress d) (S data) ((ms1 ++ m :: ms2) ++ [MOVE_NONE]) →
  Forall (λ m, m ≠ MOVE_NONE) (ms1 ++ m :: ms2) →
  (length ms1 < MAX_STATES)%nat →
  (length (ms1 ++ m :: ms2) + 2 ≤ fuel)%nat →
  all_failed d res pos ms1 = true →
  (run_rules d res (do_move (foldl do_move pos ms1) m) (rules d) = Matched
   ∨ run_rules d res (do_move (foldl do_move pos ms1) m) (rules d)
     = SkipToNext) →
  (∀ c, skip_game d fuel (S data + length ms1) c
        = Done ((S data + length (ms1 ++ m :: ms2))%nat,
                incr (length ms2) c))
  ∧ ∃ matches',
      replay d res fuel data pos 0 cnt matches
      = Done ((S data + length (ms1 ++ m :: ms2))%nat,
              incr (length ms1 + 1 + length ms2) cnt, matches').
Proof.
  intros Hp Hh Hms Hlen Hf Ha Hv. split.
  - intros c.
    rewrite <-app_assoc in Hh. apply holds_app in Hh as [_ Hh].
    simpl in Hh. apply holds_cons in Hh as [_ Hh].
    apply Forall_app in Hms as [_ Hms]. apply Forall_cons in Hms as [_ Hms].
    rewrite length_app in Hf. simpl in Hf.
    rewrite (skip_game_spec d ms2 fuel (S data + length ms1)%nat c);
      [|exact Hh|done|lia].
    rewrite length_app. simpl length. do 2 f_equal. lia.
  - eexists.
    replace (length ms1 + 1 + length ms2)%nat with (length (ms1 ++ m :: ms2))
      by (rewrite length_app; simpl; lia).
    eapply replay_abandoned; try done.
    + by eapply compiled_terminated.
    + by destruct Hv as [-> | ->].
Qed.
End AbandonClaims.

(** ** A worker over a well-formed database *)

Section WorkerFacts.
Context `{Encoding, Engine}.
Variable d : Data.
Variable rootPos : Position.

(** The offset that follows the game holding offset [lo], and the games
    from there on; [p] is the offset of the first game of [gs]. *)
Fixpoint games_after (p lo : nat) (gs : list Game) : nat * list Game :=
  match gs with
  | [] => (p, [])
  | g :: gs =>
      if bool_decide (lo < p + length (encode g))%nat
      then ((p + length (encode g))%nat, gs)
      else games_after (p + length (encode g)) lo gs
  end.

Lemma length_encode g : length (encode g) = S (S (length (moves g))).
Proof. unfold encode. simpl. rewrite length_app. simpl. lia. Qed.

Lemma database_cons g gs : database (g :: gs) = encode g ++ database gs.
Proof. reflexivity. Qed.

Lemma main_loop_eq fuel data end_ cnt matches :
  main_loop d rootPos (S fuel) data end_ cnt matches =
  if bool_decide (data < end_)%nat then
    '(data', cnt', matches') ←
      replay d (to_sq (peek d data)) fuel data rootPos 0 cnt matches;
    data'' ← end_of_game d fuel data' end_;
    main_loop d rootPos fuel data'' end_ cnt' matches'
  else Done (cnt, matches).
Proof. reflexivity. Qed.

Lemma end_of_game_stop fuel data end_ :
  peek d (S data) ≠ MOVE_NONE ∨ (end_ ≤ S data)%nat →
  end_of_game d (S fuel) data end_ = Done (S data).
Proof.
  intros Hs. simpl. destruct Hs as [Hs|Hs].
  - by apply Z.eqb_neq in Hs as ->.
  - rewrite bool_decide_eq_false_2 by lia. by rewrite andb_false_r.
Qed.

Lemma holds_database_head p g gs :
  holds (baseAddress d) p (database (g :: gs)) →
  baseAddress d p = marker g
  ∧ holds (baseAddress d) (S p) (moves g ++ [MOVE_NONE])
  ∧ holds (baseAddress d) (p + length (encode g)) (database gs).
Proof.
  rewrite database_cons, holds_app. intros [Hg Hgs].
  unfold encode in Hg. apply holds_cons in Hg as [Hm Hg]. done.
Qed.

Lemma main_loop_spec end_ gs : ∀ fuel p cnt matches,
  terminated (rules d) →
  Forall game_ok gs →
  holds (baseAddress d) p (database gs) →
  (end_ ≤ p + length (database gs))%nat →
  (length (database gs) < fuel)%nat →
  main_loop d rootPos fuel p end_ cnt matches
  = Done (scan_games d rootPos end_ p gs cnt matches).
Proof.
  induction gs as [|g gs IH]; intros fuel p cnt matches Ht Hok Hh Hend Hf;
    (destruct fuel as [|fuel]; [lia|]); rewrite main_loop_eq.
  - simpl in *. by rewrite bool_decide_eq_false_2 by lia.
  - simpl scan_games. case_bool_decide as Hp; [|done].
    apply Forall_cons in Hok as [(Hmk & Hms & Hlen) Hok].
    destruct (holds_database_head p g gs Hh) as (Emk & Hg & Hgs).
    rewrite database_cons, length_app, length_encode in Hend, Hf.
    unfold peek at 1. rewrite Emk.
    rewrite (replay_spec d (to_sq (marker g)) (moves g)); try done; try lia.
    2: { pose proof (applied_le d (to_sq (marker g)) (moves g) rootPos). lia. }
    rewrite bind_Done. cbn beta iota.
    destruct fuel as [|fuel]; [lia|].
    rewrite end_of_game_stop.
    2: { destruct gs as [|g' gs'].
         - right. simpl in Hend. lia.
         - left. unfold peek.
           destruct (holds_database_head _ g' gs' Hgs) as (Eg' & _).
           replace (S (S p + length (moves g)))%nat
             with (p + length (encode g))%nat by (rewrite length_encode; lia).
           rewrite Eg'. by apply Forall_cons in Hok as [(? & _) _]. }
    rewrite bind_Done.
    replace (S (S p + length (moves g)))%nat with (p + length (encode g))%nat
      by (rewrite length_encode; lia).
    rewrite IH; try done.
    + rewrite length_encode. lia.
    + lia.
Qed.
End WorkerFacts.

Section SearchFacts.
Context `{Encoding, Engine}.
Variable d : Data.
Variable rootPos : Position.

Lemma next_game_run k : ∀ lo fuel,
  (∀ i, (i < k)%nat → baseAddress d (lo + i) ≠ MOVE_NONE) →
  baseAddress d (lo + k) = MOVE_NONE →
  (k < fuel)%nat →
  next_game d fuel lo = Done (S (lo + k)).
Proof.
  induction k as [|k IH]; intros lo fuel Hk Hend Hf;
    (destruct fuel as [|fuel]; [lia|]); simpl; unfold peek.
  - rewrite Nat.add_0_r in *. by rewrite Hend, Z.eqb_refl.
  - pose proof (Hk 0%nat ltac:(lia)) as Hfirst.
    rewrite Nat.add_0_r in Hfirst. apply Z.eqb_neq in Hfirst as ->.
    rewrite (IH (S lo) fuel); [f_equal; lia| |by rewrite Nat.add_succ_comm|lia].
    intros i Hi. rewrite Nat.add_succ_comm. apply Hk. lia.
Qed.

Lemma encode_not_sentinel g i x :
  game_ok g → (i ≤ length (moves g))%nat → encode g !! i = Some x →
  x ≠ MOVE_NONE.
Proof.
  intros (Hmk & Hms & _) Hi. unfold encode.
  change (marker g :: moves g ++ [MOVE_NONE])
    with ((marker g :: moves g) ++ [MOVE_NONE]).
  rewrite lookup_app_l by (simpl; lia).
  intros Hx. apply list_elem_of_lookup_2 in Hx.
  apply elem_of_cons in Hx as [->|Hx]; [done|].
  by eapply Forall_forall in Hms.
Qed.

Lemma encode_last g : encode g !! S (length (moves g)) = Some MOVE_NONE.
Proof.
  unfold encode. simpl. rewrite lookup_app_r by lia.
  by rewrite Nat.sub_diag.
Qed.

Lemma games_after_cons p lo g gs :
  games_after p lo (g :: gs) =
  if bool_decide (lo < p + length (encode g))%nat
  then ((p + length (encode g))%nat, gs)
  else games_after (p + length (encode g)) lo gs.
Proof. reflexivity. Qed.

Lemma next_game_spec gs : ∀ p lo fuel,
  Forall game_ok gs →
  holds (baseAddress d) p (database gs) →
  (p ≤ lo < p + length (database gs))%nat →
  (p + length (database gs) - lo < fuel)%nat →
  next_game d fuel lo = Done (games_after p lo gs).1.
Proof.
  induction gs as [|g gs IH]; intros p lo fuel Hok Hh Hlo Hf;
    [simpl in Hlo; lia|].
  apply Forall_cons in Hok as [Hg Hok].
  rewrite database_cons, length_app in Hlo, Hf.
  rewrite database_cons in Hh. apply holds_app in Hh as [Hhg Hhgs].
  rewrite games_after_cons. case_bool_decide as Hin; cbn [fst snd].
  - pose proof (length_encode g) as Hlen.
    rewrite (next_game_run (p + S (length (moves g)) - lo));
      [f_equal; lia| | |lia].
    + intros i Hi.
      destruct (lookup_lt_is_Some_2 (encode g) (lo + i - p)) as [x Hx]; [lia|].
      replace (lo + i)%nat with (p + (lo + i - p))%nat by lia.
      rewrite (Hhg _ _ Hx). eapply encode_not_sentinel; [done| |done]. lia.
    + replace (lo + (p + S (length (moves g)) - lo))%nat
        with (p + S (length (moves g)))%nat by lia.
      apply Hhg, encode_last.
  - apply IH; try done; lia.
Qed.

Lemma games_after_holds gs : ∀ p lo,
  Forall game_ok gs →
  holds (baseAddress d) p (database gs) →
  Forall game_ok (games_after p lo gs).2
  ∧ holds (baseAddress d) (games_after p lo gs).1
      (database (games_after p lo gs).2)
  ∧ ((games_after p lo gs).1 + length (database (games_after p lo gs).2)
     = p + length (database gs))%nat.
Proof.
  induction gs as [|g gs IH]; intros p lo Hok Hh; [done|].
  apply Forall_cons in Hok as [Hg Hok].
  rewrite database_cons in Hh. apply holds_app in Hh as [Hhg Hhgs].
  rewrite database_cons, length_app.
  rewrite games_after_cons. case_bool_decide; cbn [fst snd].
  - repeat split; [done|done|lia].
  - destruct (IH (p + length (encode g))%nat lo Hok Hhgs) as (? & ? & ?).
    repeat split; [done|done|lia].
Qed.

(** The sub-range of a worker: where it starts looking and where it
    stops opening games. *)
Definition slice (nthreads idx : nat) : nat * nat :=
  let range := (dbSize d / nthreads)%nat in
  ((idx * range)%nat,
   if bool_decide (idx = nthreads - 1)%nat then dbSize d
   else (idx * range + range)%nat).

Lemma slice_bounds nthreads idx :
  (0 < dbSize d)%nat → (idx < nthreads)%nat →
  ((slice nthreads idx).1 < dbSize d)%nat
  ∧ ((slice nthreads idx).2 ≤ dbSize d)%nat.
Proof.
  intros Hd Hi. unfold slice. simpl.
  pose proof (Nat.Div0.mul_div_le (dbSize d) nthreads) as Hr.
  set (r := (dbSize d / nthreads)%nat) in *.
  split.
  - destruct (decide (r = 0%nat)) as [->|Hr0]; [lia|]. nia.
  - case_bool_decide; [done|]. nia.
Qed.

(** On a database of well-formed games, a worker finishes, and its
    counters are those of the games that start after its nominal start
    and before its nominal end. *)
Lemma search_spec gs nthreads idx fuel :
  terminated (rules d) →
  Forall game_ok gs → gs ≠ [] →
  maps_database d gs →
  (idx < nthreads)%nat →
  (dbSize d < fuel)%nat →
  search d rootPos fuel nthreads idx =
  let '(lo, end_) := slice nthreads idx in
  let '(p, gs') := games_after 0 lo gs in
  let '(cnt, matches) := scan_games d rootPos end_ p gs' 0 0 in
  Done (set_counters cnt matches d).
Proof.
  intros Ht Hok Hne [Hsz Hh] Hi Hf.
  assert (0 < dbSize d)%nat as Hpos.
  { rewrite Hsz. destruct gs as [|g gs]; [done|].
    rewrite database_cons, length_app, length_encode. lia. }
  destruct (slice_bounds nthreads idx Hpos Hi) as [Hlo Hend].
  unfold search. rewrite bool_decide_eq_false_2 by lia.
  unfold slice in *. simpl in Hlo, Hend. cbn zeta.
  rewrite (next_game_spec gs 0); [|done|done|lia|lia].
  rewrite bind_Done.
  destruct (games_after_holds gs 0 (idx * (dbSize d / nthreads)) Hok Hh)
    as (Hok' & Hh' & Hlen').
  destruct (games_after 0 _ gs) as [p gs'] eqn:Ega. simpl in *.
  rewrite (main_loop_spec d rootPos _ gs'); [|done|done|done|lia|lia].
  rewrite bind_Done. by destruct (scan_games _ _ _ _ _ _ _).
Qed.
End SearchFacts.

(** ** The empty query *)

Section EmptyQuery.
Context `{Encoding, Engine}.
Variable d : Data.
Variable rootPos : Position.
Hypothesis rules_none : rules d = [RuleNone].

Lemma replay_none fuel : ∀ res data pos st cnt matches r,
  replay d res fuel data pos st cnt matches = Done r → r.2 = matches.
Proof.
  induction fuel as [|fuel IH]; intros res data pos st cnt matches r; [done|].
  rewrite replay_eq, rules_none. simpl.
  repeat case_match; try done; [by intros [= <-] | apply IH].
Qed.

Lemma main_loop_none fuel : ∀ data end_ cnt matches r,
  main_loop d rootPos fuel data end_ cnt matches = Done r → r.2 = matches.
Proof.
  induction fuel as [|fuel IH]; intros data end_ cnt matches r; [done|].
  rewrite main_loop_eq. case_bool_decide; [|by intros [= <-]].
  destruct (replay _ _ _ _ _ _ _ _) as [[[data' cnt'] matches']| |] eqn:Er;
    [|done..].
  apply replay_none in Er. simpl in Er. subst matches'.
  rewrite bind_Done. cbn beta iota.
  destruct (end_of_game _ _ _ _) as [data''| |]; [|done..].
  rewrite bind_Done. apply IH.
Qed.

Lemma search_none fuel nthreads idx th :
  search d rootPos fuel nthreads idx = Done th → matchCnt th = 0.
Proof.
  unfold search. case_bool_decide; [done|].
  destruct (next_game _ _ _) as [data| |]; [|done..].
  rewrite bind_Done.
  destruct (main_loop _ _ _ _ _ _ _) as [[cnt matches]| |] eqn:Em; [|done..].
  apply main_loop_none in Em. simpl in Em. subst matches.
  by intros [= <-].
Qed.
End EmptyQuery.

Section ScanFacts.
Context `{Encoding, Engine}.

Lemma map_Done {A B} (f : A → outcome B) (P : B → Prop) (l : list A) :
  (∀ x, x ∈ l → ∃ y, f x = Done y ∧ P y) →
  ∃ ys, map f l = map Done ys ∧ length ys = length l ∧ Forall P ys.
Proof.
  induction l as [|x l IH]; intros Hl.
  - by exists [].
  - destruct (Hl x) as (y & Ey & Hy); [apply list_elem_of_here|].
    destruct IH as (ys & Eys & Hlen & Hys).
    { intros x' Hx'. apply Hl. by apply list_elem_of_further. }
    exists (y :: ys). simpl. rewrite Ey, Eys, Hlen. auto.
Qed.

Lemma total_matches_zero ths :
  Forall (λ th, matchCnt th = 0) ths → total_matches ths = 0.
Proof.
  unfold total_matches. induction 1 as [|th ths Hth _ IH]; [done|].
  simpl. by rewrite Hth.
Qed.

(** C7: a query object without any of the four fields compiles, from a
    data whose rule vector is empty, to the program made of RuleNone
    alone; a worker that finishes under that program reports no match
    whatever the memory holds, and over a database of well-formed games
    every worker finishes and the matches add up to 0. *)
Theorem empty_query_matches_nothing d0 (m : gmap string json) rootPos :
  rules d0 = [] →
  m !! "fen" = None → m !! "material" = None →
  m !! "stm" = None → m !! "result" = None →
  ∃ d,
    parse_rules d0 (JObject m) = Done d
    ∧ rules d = [RuleNone]
    ∧ (∀ fuel nthreads idx th,
         search d rootPos fuel nthreads idx = Done th → matchCnt th = 0)
    ∧ (∀ gs nthreads fuel,
         Forall game_ok gs → gs ≠ [] → maps_database d0 gs →
         (dbSize d0 < fuel)%nat →
         ∃ ths,
           scan fuel nthreads rootPos d = map Done ths
           ∧ length ths = nthreads
           ∧ total_matches ths = 0).
Proof.
  intros Hd Hf Hm Hs Hr. exists (push_rule RuleNone d0).
  assert (rules (push_rule RuleNone d0) = [RuleNone]) as Hrules.
  { simpl. by rewrite Hd. }
  split; [by apply parse_rules_no_field|]. split; [done|]. split.
  - intros fuel nthreads idx th. by apply search_none.
  - intros gs nthreads fuel Hok Hne Hdb Hfuel. unfold scan.
    destruct (map_Done (search (push_rule RuleNone d0) rootPos fuel nthreads)
                (λ th, matchCnt th = 0) (seq 0 nthreads))
      as (ths & Eths & Hlen & Hths).
    + intros idx Hidx. apply elem_of_seq in Hidx.
      assert (∃ th, search (push_rule RuleNone d0) rootPos fuel nthreads idx
                    = Done th) as [th Eth].
      { rewrite (search_spec _ rootPos gs); try done; try lia.
        - repeat case_match. eauto.
        - unfold terminated. rewrite Hrules. right. apply list_elem_of_here. }
      exists th. split; [done|]. by eapply search_none.
    + exists ths. rewrite length_seq in Hlen.
      split; [done|]. split; [done|]. by apply total_matches_zero.
Qed.
End ScanFacts.

(** ** Runs on the small instance *)

(** A decidable form of [holds]. *)
Fixpoint holdsb (mem : nat → Move) (k : nat) (xs : list Move) : bool :=
  match xs with
  | [] => true
  | x :: xs => (mem k =? x) && holdsb mem (S k) xs
  end.

Lemma holdsb_holds mem k xs : holdsb mem k xs = true → holds mem k xs.
Proof.
  revert k. induction xs as [|x xs IH]; intros k; simpl.
  - by intros _ i x.
  - rewrite andb_true_iff, Z.eqb_eq. intros [Hx Hxs].
    apply holds_cons. auto.
Qed.

Module Cases.
Import Sample.

(** The data compiled from query [q] over the moves [db]. *)
Definition compile (db : list Move) (beyond : Move) (q : json) : Data :=
  match parse_rules (data_over db beyond) q with
  | Done d => d
  | _ => data_over db beyond
  end.

(** The two sums [print_results] reports, when every thread finished. *)
Definition totals (fuel nthreads : nat) (rootPos : position) (d : Data)
    : option (Z * Z) :=
  ths ← mapM (λ o, match o with Done th => Some th | _ => None end)
            (scan fuel nthreads rootPos d);
  Some (total_moves ths, total_matches ths).

(** White king e1 and pawn e2, black king e8, white to move. *)
Definition start : position :=
  {| placed := [ {| sq := 60; color := BLACK; kind := KING |};
                 {| sq := 12; color := WHITE; kind := PAWN |};
                 {| sq := 4; color := WHITE; kind := KING |} ];
     turn := WHITE |}.

(** A result marker: a move whose destination square is the result. *)
Definition result_marker (res : GameResult) : Move := mv 1 res.

Definition two_games : list Game :=
  [ {| marker := result_marker WhiteWin; moves := [mv 12 20] |};
    {| marker := result_marker BlackWin; moves := [mv 12 28] |} ].

Definition three_games : list Game :=
  two_games ++ [ {| marker := result_marker Draw; moves := [mv 4 5] |} ].

(** One game in which the white king stays on e1 for two moves. *)
Definition king_game : Game :=
  {| marker := result_marker WhiteWin; moves := [mv 12 20; mv 60 59] |}.

Definition black_to_move : json := JObject {[ "stm" := JString "BLACK" ]}.
Definition king_on_e1 : json := JObject {[ "fen" := JString "8/8/8/8/8/8/8/4K3" ]}.
Definition minor_pieces : json :=
  JObject {[ "fen" := JString "8/8/p7/8/8/1B3N2/8/8" ]}.

(** The pattern of [minor_pieces] with both kings added. *)
Definition with_kings : position :=
  {| placed := [ {| sq := 60; color := BLACK; kind := KING |};
                 {| sq := 40; color := BLACK; kind := PAWN |};
                 {| sq := 17; color := WHITE; kind := BISHOP |};
                 {| sq := 21; color := WHITE; kind := KNIGHT |};
                 {| sq := 4; color := WHITE; kind := KING |} ];
     turn := WHITE |}.

(** The number of moves of a database that are neither sentinels nor
    result markers. *)
Definition played (gs : list Game) : Z :=
  foldr (λ g n, Z.of_nat (length (moves g)) + n) 0 gs.
End Cases.

Section Runs.
Import Sample Cases.

(** C1 as stated fails: under the program compiled from a pattern of
    three minor pieces, a position holding those pieces and both kings
    reaches RuleEnd although its occupancy differs from the pattern's. *)
Lemma pattern_superset_matches :
  set_fen "4k3/8/p7/8/8/1B3N2/8/4K3" = Some with_kings
  ∧ rules (compile [] 0 minor_pieces) = [RulePattern; RuleEnd]
  ∧ run_rules (compile [] 0 minor_pieces) 0 with_kings
      (rules (compile [] 0 minor_pieces)) = Matched
  ∧ pieces with_kings ≠ all (pattern (compile [] 0 minor_pieces))
  ∧ Z.land (pieces with_kings) (all (pattern (compile [] 0 minor_pieces)))
    = all (pattern (compile [] 0 minor_pieces)).
Proof. repeat split; by vm_compute. Qed.

(** C2 on the code: over two games of one move each, a single worker
    replays the second game only, and two workers replay none, the
    second game starting at the nominal boundary; whatever follows the
    database in memory. *)
Theorem boundary_game_is_dropped (beyond : Move) :
  Forall game_ok two_games
  ∧ played two_games = 2
  ∧ totals 20 1 start (compile (database two_games) beyond black_to_move)
    = Some (1, 1)
  ∧ totals 20 2 start (compile (database two_games) beyond black_to_move)
    = Some (0, 0).
Proof.
  split; [|split; [done|]].
  - repeat constructor; try done; unfold MAX_STATES; simpl; lia.
  - by destruct beyond; vm_compute.
Qed.

(** C3 on the code: over three games of one move each and three
    workers, every game starts at a nominal start and the counters add
    up to 0 of the 3 moves played. *)
Theorem partition_loses_moves (beyond : Move) :
  Forall game_ok three_games
  ∧ played three_games = 3
  ∧ totals 20 3 start (compile (database three_games) beyond black_to_move)
    = Some (0, 0).
Proof.
  split; [|split; [done|]].
  - repeat constructor; try done; unfold MAX_STATES; simpl; lia.
  - by destruct beyond; vm_compute.
Qed.
End Runs.

Section Witnesses.
Import Sample Cases.

Lemma compiled_program_order_witness :
  ∃ ops,
    rules (compile [] 0 minor_pieces)
    = ops ++ [if bool_decide (ops = []) then RuleNone else RuleEnd]
    ∧ StronglySorted (λ a b, rule_rank a < rule_rank b)%nat ops
    ∧ Forall (λ r, r ≠ RuleEnd ∧ r ≠ RuleNone) ops
    ∧ (RulePattern ∈ ops ↔ json_empty (query_field minor_pieces "fen") = false)
    ∧ (RuleMaterial ∈ ops
       ↔ json_empty (query_field minor_pieces "material") = false)
    ∧ (RuleWhite ∈ ops ↔
         json_empty (query_field minor_pieces "stm") = false
         ∧ query_field minor_pieces "stm" = JString "WHITE")
    ∧ (RuleBlack ∈ ops ↔
         json_empty (query_field minor_pieces "stm") = false
         ∧ query_field minor_pieces "stm" ≠ JString "WHITE")
    ∧ (RuleResult ∈ ops ↔
         ∃ s, s ∈ result_names ∧ query_field minor_pieces "result" = JString s).
Proof.
  apply (@compiled_program_order encoding engine (data_over [] 0) minor_pieces).
  - reflexivity.
  - vm_compute. reflexivity.
Defined.

Lemma empty_query_matches_nothing_witness :
  ∃ d,
    parse_rules (data_over (database two_games) 0) (JObject ∅) = Done d
    ∧ rules d = [RuleNone]
    ∧ (∀ fuel nthreads idx th,
         search d start fuel nthreads idx = Done th → matchCnt th = 0)
    ∧ (∀ gs nthreads fuel,
         Forall game_ok gs → gs ≠ [] →
         maps_database (data_over (database two_games) 0) gs →
         (dbSize (data_over (database two_games) 0) < fuel)%nat →
         ∃ ths,
           scan fuel nthreads start d = map Done ths
           ∧ length ths = nthreads
           ∧ total_matches ths = 0).
Proof.
  apply (@empty_query_matches_nothing encoding engine
           (data_over (database two_games) 0) ∅ start);
    reflexivity.
Defined.

Lemma unrecognized_result_ignored_witness :
  parse_rules (data_over [] 0)
    (JObject (<["result" := JString "2-0"]> {[ "stm" := JString "WHITE" ]}))
  = parse_rules (data_over [] 0)
      (JObject (delete "result" {[ "stm" := JString "WHITE" ]})).
Proof.
  apply (@unrecognized_result_ignored encoding engine (data_over [] 0)
           {[ "stm" := JString "WHITE" ]} (JString "2-0")).
  intros s Hs [= <-]. vm_compute in Hs.
  repeat (apply elem_of_cons in Hs as [[=]|Hs]). by apply elem_of_nil in Hs.
Defined.

Lemma stm_not_WHITE_emits_black_witness :
  parse_stm (data_over [] 0) (JObject {[ "stm" := JString "white" ]})
  = Done (push_rule RuleBlack (data_over [] 0))
  ∧ (∀ d', parse_rules (data_over [] 0)
             (JObject {[ "stm" := JString "white" ]}) = Done d' →
       ∃ pre post,
         rules d' = rules (data_over [] 0) ++ pre ++ RuleBlack :: post
         ∧ Forall (λ r, r = RulePattern ∨ r = RuleMaterial) pre)
  ∧ ((∃ d', parse_rules (data_over [] 0)
              (JObject {[ "stm" := JString "white" ]}) = Done d')
     ↔ (∃ d', parse_rules (data_over [] 0)
                (JObject (delete "stm" {[ "stm" := JString "white" ]}))
              = Done d')).
Proof.
  apply (@stm_not_WHITE_emits_black encoding engine (data_over [] 0)
           {[ "stm" := JString "white" ]} (JString "white")).
  - reflexivity.
  - reflexivity.
  - discriminate.
Defined.
End Witnesses.

Section ReplayWitnesses.
Import Sample Cases.

(** The data compiled from [king_on_e1] over the one game [king_game]. *)
Definition king_data : Data := compile (database [king_game]) 0 king_on_e1.

Lemma king_data_compiled :
  parse_rules (data_over (database [king_game]) 0) king_on_e1 = Done king_data.
Proof. vm_compute. reflexivity. Defined.

Lemma one_match_per_game_witness :
  run_rules king_data 0 (do_move start (mv 12 20)) (rules king_data) = Matched
  ∧ run_rules king_data 0 (do_move (do_move start (mv 12 20)) (mv 60 59))
      (rules king_data) = Matched
  ∧ replay king_data 0 10 0 start 0 0 0 = Done (3%nat, 2, 1).
Proof.
  destruct (@one_match_per_game encoding engine _ _ _ 0 (moves king_game)
              10%nat 0%nat start 0 0 king_data_compiled)
    as (matches' & Hrep & _ & Hend & _ & _).
  - apply holdsb_holds. reflexivity.
  - repeat constructor; discriminate.
  - unfold MAX_STATES. simpl. lia.
  - simpl. lia.
  - split; [reflexivity|]. split; [reflexivity|].
    rewrite Hrep.
    rewrite (Hend [] (mv 12 20) [mv 60 59] [RulePattern] []).
    + reflexivity.
    + reflexivity.
    + reflexivity.
    + reflexivity.
    + repeat constructor.
Defined.

(** A game White won, three moves long. *)
Definition long_game : Game :=
  {| marker := result_marker WhiteWin;
     moves := [mv 12 20; mv 60 59; mv 20 28] |}.

Definition white_to_move_black_won : json :=
  JObject {[ "stm" := JString "WHITE"; "result" := JString "0-1" ]}.

(** The data compiled from [white_to_move_black_won] over [long_game]. *)
Definition mismatch_data : Data :=
  compile (database [long_game]) 0 white_to_move_black_won.

Lemma mismatch_data_compiled :
  parse_rules (data_over (database [long_game]) 0) white_to_move_black_won
  = Done mismatch_data.
Proof. vm_compute. reflexivity. Defined.

(** The game of [mismatch_data] was won by White and the query asks for a
    win of Black.  After the first move it is Black's turn: the
    side-to-move opcode fails and the replay goes on.  After the second
    move it is White's turn: the result opcode is reached and fails, the
    third move is skipped and the match counter stays at 0. *)
Lemma result_mismatch_abandons_game_witness :
  rules mismatch_data = [RuleWhite; RuleResult; RuleEnd]
  ∧ to_sq (marker long_game) = WhiteWin
  ∧ result mismatch_data = BlackWin
  ∧ run_rules mismatch_data 0 (do_move start (mv 12 20)) (rules mismatch_data)
    = Failed
  ∧ run_rules mismatch_data 0 (do_move (do_move start (mv 12 20)) (mv 60 59))
      (rules mismatch_data) = SkipToNext
  ∧ (0 ≠ result mismatch_data ∧ RuleResult ∈ rules mismatch_data)
  ∧ replay mismatch_data 0 10 0 start 0 0 0 = Done (4%nat, 3, 0)
  ∧ replay mismatch_data 0 10 0 start 0 0 0
    = replay mismatch_data 0 9 1 (do_move start (mv 12 20)) 1 1 0.
Proof.
  destruct (@result_mismatch_abandons_game encoding engine _ _ _ 0
              mismatch_data_compiled)
    as (Honly & Hskip & Hfail & Hgame & Hstep).
  assert (rules mismatch_data = [RuleWhite; RuleResult; RuleEnd]) as Er
    by (vm_compute; reflexivity).
  assert (run_rules mismatch_data 0 (do_move start (mv 12 20))
            (rules mismatch_data) = Failed) as Hv1.
  { rewrite Er.
    apply (Hfail _ [] RuleWhite [RuleResult; RuleEnd]).
    - constructor.
    - right. right. left. reflexivity.
    - reflexivity. }
  assert (run_rules mismatch_data 0
            (do_move (do_move start (mv 12 20)) (mv 60 59))
            (rules mismatch_data) = SkipToNext) as Hv2.
  { rewrite Er.
    apply (Hskip _ [RuleWhite] [RuleEnd]).
    - repeat constructor.
    - discriminate. }
  split; [exact Er|]. split; [reflexivity|]. split; [reflexivity|].
  split; [exact Hv1|]. split; [exact Hv2|].
  split; [exact (Honly _ _ Hv2)|]. split.
  - apply (Hgame 10%nat 0%nat start 0 0 [mv 12 20] (mv 60 59) [mv 20 28]).
    + apply holdsb_holds. reflexivity.
    + repeat constructor; discriminate.
    + unfold MAX_STATES. simpl. lia.
    + simpl. lia.
    + vm_compute. reflexivity.
    + exact Hv2.
  - apply (Hstep 9%nat 0%nat start 0%nat 0 0).
    + discriminate.
    + unfold MAX_STATES. lia.
    + exact Hv1.
Defined.

Lemma skipped_moves_are_counted_witness :
  (∀ c, skip_game king_data 10 (1 + 0) c
        = Done ((1 + length ([] ++ mv 12 20 :: [mv 60 59]))%nat,
                incr (length [mv 60 59]) c))
  ∧ ∃ matches',
      replay king_data 0 10 0 start 0 0 0
      = Done ((1 + length ([] ++ mv 12 20 :: [mv 60 59]))%nat,
              incr (0 + 1 + length [mv 60 59]) 0, matches').
Proof.
  apply (@skipped_moves_are_counted encoding engine _ _ _ 0 10%nat 0%nat
           start 0 0 [] (mv 12 20) [mv 60 59] king_data_compiled).
  - apply holdsb_holds. reflexivity.
  - repeat constructor; discriminate.
  - unfold MAX_STATES. simpl. lia.
  - simpl. lia.
  - reflexivity.
  - left. vm_compute. reflexivity.
Defined.
End ReplayWitnesses.

(** * Further properties of the scan *)

(** ** Which games a worker opens *)

Section Partition.
Context `{Encoding, Engine}.
Variable d : Data.
Variable rootPos : Position.

(** The counters after the games of [gs] whose result marker lies strictly
    between the offsets [lo] and [end_]; [p] is the offset of the first
    game of [gs]. *)
Fixpoint scan_opened (lo end_ p : nat) (gs : list Game) (cnt matches : Z)
    : Z * Z :=
  match gs with
  | [] => (cnt, matches)
  | g :: gs =>
      if bool_decide (lo < p < end_)%nat then
        scan_opened lo end_ (p + length (encode g)) gs
          (incr (length (moves g)) cnt)
          (credit (game_verdict d (to_sq (marker g)) rootPos (moves g)) matches)
      else scan_opened lo end_ (p + length (encode g)) gs cnt matches
  end.

(** A worker opens the game at offset [p]. *)
Definition opened_by (nthreads idx p : nat) : Prop :=
  ((slice d nthreads idx).1 < p < (slice d nthreads idx).2)%nat.

Lemma scan_opened_cons lo end_ p g gs cnt matches :
  scan_opened lo end_ p (g :: gs) cnt matches =
  if bool_decide (lo < p < end_)%nat then
    scan_opened lo end_ (p + length (encode g)) gs
      (incr (length (moves g)) cnt)
      (credit (game_verdict d (to_sq (marker g)) rootPos (moves g)) matches)
  else scan_opened lo end_ (p + length (encode g)) gs cnt matches.
Proof. reflexivity. Qed.

Lemma scan_games_cons end_ p g gs cnt matches :
  scan_games d rootPos end_ p (g :: gs) cnt matches =
  if bool_decide (p < end_)%nat then
    scan_games d rootPos end_ (p + length (encode g)) gs
      (incr (length (moves g)) cnt)
      (credit (game_verdict d (to_sq (marker g)) rootPos (moves g)) matches)
  else (cnt, matches).
Proof. reflexivity. Qed.

Lemma scan_opened_past lo end_ gs : ∀ p cnt matches,
  (end_ ≤ p)%nat → scan_opened lo end_ p gs cnt matches = (cnt, matches).
Proof.
  induction gs as [|g gs IH]; intros p cnt matches Hp; [done|].
  rewrite scan_opened_cons, bool_decide_eq_false_2 by lia. apply IH. lia.
Qed.

Lemma scan_games_opened lo end_ gs : ∀ p cnt matches,
  (lo < p)%nat →
  scan_games d rootPos end_ p gs cnt matches
  = scan_opened lo end_ p gs cnt matches.
Proof.
  induction gs as [|g gs IH]; intros p cnt matches Hp; [done|].
  rewrite scan_games_cons, scan_opened_cons. case_bool_decide.
  - rewrite bool_decide_eq_true_2 by lia. apply IH. lia.
  - rewrite bool_decide_eq_false_2 by lia.
    symmetry. apply scan_opened_past. lia.
Qed.

Lemma games_after_opened lo end_ gs : ∀ p cnt matches,
  (p ≤ lo)%nat →
  scan_games d rootPos end_ (games_after p lo gs).1 (games_after p lo gs).2
    cnt matches
  = scan_opened lo end_ p gs cnt matches.
Proof.
  induction gs as [|g gs IH]; intros p cnt matches Hp; [done|].
  rewrite games_after_cons, scan_opened_cons.
  rewrite (bool_decide_eq_false_2 (lo < p < end_)%nat) by lia.
  case_bool_decide; cbn [fst snd].
  - by apply scan_games_opened.
  - apply IH. lia.
Qed.

Lemma worker_counts_opened_games_aux gs nthreads idx fuel :
  terminated (rules d) →
  Forall game_ok gs → gs ≠ [] →
  maps_database d gs →
  (idx < nthreads)%nat →
  (dbSize d < fuel)%nat →
  search d rootPos fuel nthreads idx
  = Done (set_counters
            (scan_opened (slice d nthreads idx).1 (slice d nthreads idx).2
               0 gs 0 0).1
            (scan_opened (slice d nthreads idx).1 (slice d nthreads idx).2
               0 gs 0 0).2 d).
Proof.
  intros Ht Hok Hne Hdb Hi Hf.
  rewrite (search_spec d rootPos gs) by done.
  destruct (slice d nthreads idx) as [lo end_]. cbn [fst snd].
  rewrite <-(games_after_opened lo end_ gs 0) by lia.
  destruct (games_after 0 lo gs) as [p gs']. cbn [fst snd].
  by destruct (scan_games _ _ _ _ _ _ _).
Qed.

(** X1: Over a database of well-formed games a worker finishes within
    [dbSize + 1] steps of fuel, and its counters are those of the games
    whose result marker lies strictly between its nominal start and its
    nominal end. *)
Theorem worker_counts_opened_games gs nthreads idx fuel :
  terminated (rules d) →
  Forall game_ok gs → gs ≠ [] →
  maps_database d gs →
  (idx < nthreads)%nat →
  (dbSize d < fuel)%nat →
  search d rootPos fuel nthreads idx
  = Done (set_counters
            (scan_opened (slice d nthreads idx).1 (slice d nthreads idx).2
               0 gs 0 0).1
            (scan_opened (slice d nthreads idx).1 (slice d nthreads idx).2
               0 gs 0 0).2 d).
Proof.
  intros Ht Hok Hne Hdb Hi Hf.
  rewrite (search_spec d rootPos gs) by done.
  destruct (slice d nthreads idx) as [lo end_]. cbn [fst snd].
  rewrite <-(games_after_opened lo end_ gs 0) by lia.
  destruct (games_after 0 lo gs) as [p gs']. cbn [fst snd].
  by destruct (scan_games _ _ _ _ _ _ _).
Qed.
End Partition.

Section Slices.
Variable d : Data.

Lemma slice_eq nthreads idx :
  slice d nthreads idx =
  ((idx * (dbSize d / nthreads))%nat,
   if bool_decide (idx = nthreads - 1)%nat then dbSize d
   else (idx * (dbSize d / nthreads) + dbSize d / nthreads)%nat).
Proof. reflexivity. Qed.

Lemma opened_before i j p nthreads :
  (i < j)%nat → (j < nthreads)%nat →
  opened_by d nthreads i p → opened_by d nthreads j p → False.
Proof.
  unfold opened_by. rewrite !slice_eq. cbn [fst snd].
  intros Hij Hj [_ Hi] [Hlo _].
  rewrite bool_decide_eq_false_2 in Hi by lia.
  assert ((i + 1) * (dbSize d / nthreads) ≤ j * (dbSize d / nthreads))%nat
    by (apply Nat.mul_le_mono_r; lia).
  lia.
Qed.

(** X2: No game is opened by two workers. *)
Theorem games_opened_at_most_once nthreads i j p :
  (i < nthreads)%nat → (j < nthreads)%nat →
  opened_by d nthreads i p → opened_by d nthreads j p → i = j.
Proof.
  intros Hi Hj Hpi Hpj.
  destruct (lt_eq_lt_dec i j) as [[Hlt| ->]|Hgt]; [exfalso|done|exfalso].
  - by eapply (opened_before i j).
  - by eapply (opened_before j i).
Qed.

(** X3: A game of the database is opened by some worker exactly when its
    result marker does not sit at the nominal start of a worker. *)
Theorem game_opened_iff_off_nominal_starts nthreads p :
  (0 < nthreads)%nat → (p < dbSize d)%nat →
  (∃ idx, (idx < nthreads)%nat ∧ opened_by d nthreads idx p)
  ↔ ∀ idx, (idx < nthreads)%nat → p ≠ (idx * (dbSize d / nthreads))%nat.
Proof.
  intros Hn Hp. unfold opened_by. setoid_rewrite slice_eq. cbn [fst snd].
  pose proof (Nat.Div0.mul_div_le (dbSize d) nthreads) as Hr.
  set (r := (dbSize d / nthreads)%nat) in *.
  split.
  - intros (i & Hi & Hlo & Hend) k Hk ->.
    assert (i < k)%nat as Hik.
    { apply Nat.mul_lt_mono_pos_r with (p := r); lia. }
    rewrite bool_decide_eq_false_2 in Hend by lia.
    assert ((i + 1) * r ≤ k * r)%nat by (apply Nat.mul_le_mono_r; lia).
    lia.
  - intros Hoff.
    destruct (decide (r = 0%nat)) as [Hr0|Hr0].
    { exists (nthreads - 1)%nat. rewrite bool_decide_eq_true_2 by done.
      pose proof (Hoff 0%nat Hn). rewrite Hr0 in *. lia. }
    pose proof (Nat.div_mod_eq p r) as Hdiv.
    pose proof (Nat.mod_upper_bound p r Hr0) as Hmod.
    destruct (decide (p / r < nthreads - 1)%nat) as [Hq|Hq].
    + exists (p / r)%nat. rewrite bool_decide_eq_false_2 by lia.
      pose proof (Hoff (p / r)%nat ltac:(lia)). lia.
    + exists (nthreads - 1)%nat. rewrite bool_decide_eq_true_2 by done.
      pose proof (Hoff (nthreads - 1)%nat ltac:(lia)).
      assert ((nthreads - 1) * r ≤ p / r * r)%nat
        by (apply Nat.mul_le_mono_r; lia).
      lia.
Qed.
End Slices.

(** ** What parse_rules changes and when it fails *)

Section CompilerSteps.
Context `{Encoding, Engine}.

(** A field value the compiler accepts: empty, or a string that [decode]
    reads. *)
Definition decodable (decode : string → option Position) (v : json) : Prop :=
  json_empty v = true ∨ ∃ s, v = JString s ∧ is_Some (decode s).

(** A payload on which [j[key]] does not throw. *)
Definition indexable (j : json) : Prop := j = JNull ∨ ∃ m, j = JObject m.

Lemma indexable_cases j : indexable j ∨ ¬ indexable j.
Proof.
  unfold indexable.
  destruct j; eauto; right; intros [|[? ?]]; discriminate.
Qed.

Lemma json_at_indexable j key :
  indexable j → json_at j key = Done (query_field j key).
Proof. by intros [-> | [m ->]]. Qed.

Lemma json_at_not_indexable j key : ¬ indexable j → json_at j key = Undefined.
Proof.
  unfold indexable. destruct j; try done; intros Hn; destruct Hn; eauto.
Qed.

Lemma json_string_inv v s : json_string v = Done s → v = JString s.
Proof. destruct v; simpl; congruence. Qed.

Lemma parse_fen_inv d j d' :
  parse_fen d j = Done d' →
  indexable j
  ∧ ((json_empty (query_field j "fen") = true ∧ d' = d)
     ∨ (∃ s pos,
          query_field j "fen" = JString s ∧ set_fen s = Some pos
          ∧ d' = push_rule RulePattern
                   (set_pattern (pattern_of (pattern d) pos) d))).
Proof.
  unfold parse_fen.
  destruct (indexable_cases j) as [Hj|Hj];
    [|by rewrite json_at_not_indexable].
  rewrite (json_at_indexable j) by done. rewrite bind_Done.
  intros Hd. split; [done|]. revert Hd.
  destruct (json_empty _) eqn:Ee; [intros [= <-]; auto|].
  destruct (json_string _) as [s| |] eqn:Es; [|done..].
  apply json_string_inv in Es. rewrite bind_Done.
  destruct (set_fen s) as [pos|] eqn:Ef; [|done].
  intros [= <-]. right. eauto.
Qed.

Lemma parse_material_inv d j d' :
  parse_material d j = Done d' →
  indexable j
  ∧ ((json_empty (query_field j "material") = true ∧ d' = d)
     ∨ (∃ s pos,
          query_field j "material" = JString s ∧ set_material s = Some pos
          ∧ d' = push_rule RuleMaterial (set_matKey (material_key pos) d))).
Proof.
  unfold parse_material.
  destruct (indexable_cases j) as [Hj|Hj];
    [|by rewrite json_at_not_indexable].
  rewrite (json_at_indexable j) by done. rewrite bind_Done.
  intros Hd. split; [done|]. revert Hd.
  destruct (json_empty _) eqn:Ee; [intros [= <-]; auto|].
  destruct (json_string _) as [s| |] eqn:Es; [|done..].
  apply json_string_inv in Es. rewrite bind_Done.
  destruct (set_material s) as [pos|] eqn:Ef; [|done].
  intros [= <-]. right. eauto.
Qed.

Lemma parse_stm_inv d j d' :
  parse_stm d j = Done d' → d' = d ∨ ∃ r, d' = push_rule r d.
Proof.
  unfold parse_stm. destruct (json_at j "stm") as [v| |]; [|done..].
  rewrite bind_Done. destruct (json_empty v); intros [= <-]; eauto.
Qed.

Lemma parse_result_inv d j d' :
  parse_result d j = Done d' →
  (d' = d
   ∧ (json_empty (query_field j "result") = true
      ∨ result_of_json (query_field j "result") = Invalid))
  ∨ (d' = push_rule RuleResult (set_result (result_of_json (query_field j "result")) d)
     ∧ json_empty (query_field j "result") = false
     ∧ result_of_json (query_field j "result") ≠ Invalid).
Proof.
  unfold parse_result. destruct (json_at j "result") as [v| |] eqn:Ev; [|done..].
  apply json_at_Done in Ev as ->. rewrite bind_Done.
  destruct (json_empty _) eqn:Ee; [intros [= <-]; auto|].
  destruct (_ =? Invalid) eqn:Ei; intros [= <-].
  - apply Z.eqb_eq in Ei. auto.
  - apply Z.eqb_neq in Ei. auto.
Qed.

Lemma parse_rules_inv d j d' :
  parse_rules d j = Done d' →
  ∃ d1 d2 d3 d4,
    parse_fen d j = Done d1 ∧ parse_material d1 j = Done d2
    ∧ parse_stm d2 j = Done d3 ∧ parse_result d3 j = Done d4
    ∧ d' = push_rule (if bool_decide (rules d4 = []) then RuleNone else RuleEnd) d4.
Proof.
  unfold parse_rules.
  destruct (parse_fen d j) as [d1| |] eqn:E1; [|done..]. rewrite bind_Done.
  destruct (parse_material d1 j) as [d2| |] eqn:E2; [|done..]. rewrite bind_Done.
  destruct (parse_stm d2 j) as [d3| |] eqn:E3; [|done..]. rewrite bind_Done.
  destruct (parse_result d3 j) as [d4| |] eqn:E4; [|done..]. rewrite bind_Done.
  cbv beta. intros Hd. exists d1, d2, d3, d4. repeat split; try done.
  by injection Hd.
Qed.

(** X12: The compiler never touches the mapping or the counters, and leaves
    the operand of every test the query does not ask for as it was. *)
Theorem parse_rules_changes_only_the_query d j d' :
  parse_rules d j = Done d' →
  baseAddress d' = baseAddress d ∧ dbSize d' = dbSize d
  ∧ movesCnt d' = movesCnt d ∧ matchCnt d' = matchCnt d
  ∧ (json_empty (query_field j "fen") = true → pattern d' = pattern d)
  ∧ (json_empty (query_field j "material") = true → matKey d' = matKey d)
  ∧ (RuleResult ∉ predicate_ops j → result d' = result d).
Proof.
  intros Hp.
  destruct (parse_rules_inv _ _ _ Hp) as (d1 & d2 & d3 & d4 & H1 & H2 & H3 & H4 & ->).
  apply parse_fen_inv in H1 as [_ H1]. apply parse_material_inv in H2 as [_ H2].
  apply parse_stm_inv in H3. apply parse_result_inv in H4.
  rewrite elem_of_predicate_ops.
  destruct H1 as [[E1 ->]|(s1 & p1 & E1 & _ & ->)];
    destruct H2 as [[E2 ->]|(s2 & p2 & E2 & _ & ->)];
    destruct H3 as [->|[r ->]];
    destruct H4 as [[-> _]|(-> & E4 & N4)];
    simpl; rewrite ?E1, ?E2; simpl; repeat split; try done;
    try (apply Z.eqb_neq in N4; intros Hn; exfalso; apply Hn;
         destruct (json_is _ _); tauto).
Qed.
End CompilerSteps.

Section CompilerOutcome.
Context `{Encoding, Engine}.

Lemma parse_fen_Done d j :
  indexable j → decodable set_fen (query_field j "fen") →
  ∃ d', parse_fen d j = Done d'.
Proof.
  intros Hj Hf. unfold parse_fen. rewrite json_at_indexable, bind_Done by done.
  destruct Hf as [-> | (s & -> & [pos Hs])]; [eauto|].
  simpl. rewrite Hs. eauto.
Qed.

Lemma parse_material_Done d j :
  indexable j → decodable set_material (query_field j "material") →
  ∃ d', parse_material d j = Done d'.
Proof.
  intros Hj Hf. unfold parse_material.
  rewrite json_at_indexable, bind_Done by done.
  destruct Hf as [-> | (s & -> & [pos Hs])]; [eauto|].
  simpl. rewrite Hs. eauto.
Qed.

Lemma parse_stm_indexable d j : indexable j → ∃ d', parse_stm d j = Done d'.
Proof.
  intros Hj. unfold parse_stm. rewrite json_at_indexable, bind_Done by done.
  destruct (json_empty _); eauto.
Qed.

Lemma parse_result_indexable d j :
  indexable j → ∃ d', parse_result d j = Done d'.
Proof.
  intros Hj. unfold parse_result. rewrite json_at_indexable, bind_Done by done.
  destruct (json_empty _); eauto. destruct (_ =? Invalid); eauto.
Qed.

(** X11: The compiler succeeds exactly on a payload that is an object or null
    and whose "fen" and "material" values are each empty or a string the
    engine decodes; the "stm" and "result" values never make it fail. *)
Theorem parse_rules_succeeds_iff d j :
  (∃ d', parse_rules d j = Done d')
  ↔ indexable j
    ∧ decodable set_fen (query_field j "fen")
    ∧ decodable set_material (query_field j "material").
Proof.
  split.
  - intros [d' Hp].
    destruct (parse_rules_inv _ _ _ Hp) as (d1 & d2 & _ & _ & H1 & H2 & _).
    apply parse_fen_inv in H1 as [Hj H1].
    apply parse_material_inv in H2 as [_ H2].
    unfold decodable. repeat split; [done| |].
    + destruct H1 as [[? _]|(s & pos & -> & Hs & _)]; [by left|].
      right. exists s. by rewrite Hs.
    + destruct H2 as [[? _]|(s & pos & -> & Hs & _)]; [by left|].
      right. exists s. by rewrite Hs.
  - intros (Hj & Hf & Hm). unfold parse_rules.
    destruct (parse_fen_Done d j Hj Hf) as [d1 ->]. rewrite bind_Done.
    destruct (parse_material_Done d1 j Hj Hm) as [d2 ->]. rewrite bind_Done.
    destruct (parse_stm_indexable d2 j Hj) as [d3 ->]. rewrite bind_Done.
    destruct (parse_result_indexable d3 j Hj) as [d4 ->]. rewrite bind_Done.
    eauto.
Qed.

Lemma listed_pieces pos (pts : list PieceType) :
  Forall (λ q, q.2 ≠ 0 ∧ q.2 = pieces_pt pos q.1)
    (omap (λ pt, if pieces_pt pos pt =? 0 then None
                 else Some (pt, pieces_pt pos pt)) pts)
  ∧ map fst (omap (λ pt, if pieces_pt pos pt =? 0 then None
                         else Some (pt, pieces_pt pos pt)) pts)
    = filter (λ pt, pieces_pt pos pt ≠ 0) pts.
Proof.
  induction pts as [|pt pts [IH1 IH2]]; [by split|].
  rewrite filter_cons. simpl.
  destruct (pieces_pt pos pt =? 0) eqn:E.
  - apply Z.eqb_eq in E. by rewrite decide_False by (by intros ?).
  - apply Z.eqb_neq in E. rewrite decide_True by done. simpl.
    split; [by constructor | by f_equal].
Qed.

Lemma fen_pattern d j d' s pos :
  query_field j "fen" = JString s → set_fen s = Some pos →
  parse_rules d j = Done d' →
  all (pattern d') = pieces pos
  ∧ white (pattern d') = pieces_c pos WHITE
  ∧ ∃ added,
      pattern_pieces (pattern d') = pattern_pieces (pattern d) ++ added
      ∧ Forall (λ q, q.2 ≠ 0 ∧ q.2 = pieces_pt pos q.1) added
      ∧ map fst added = filter (λ pt, pieces_pt pos pt ≠ 0) piece_types.
Proof.
  intros Ef Es Hp.
  destruct (parse_rules_inv _ _ _ Hp) as (d1 & d2 & d3 & d4 & H1 & H2 & H3 & H4 & ->).
  apply parse_fen_inv in H1 as [_ H1]. apply parse_material_inv in H2 as [_ H2].
  apply parse_stm_inv in H3. apply parse_result_inv in H4.
  destruct H1 as [[E1 _]|(s1 & p1 & E1 & Es1 & ->)]; [by rewrite Ef in E1|].
  rewrite Ef in E1. injection E1 as <-. rewrite Es in Es1. injection Es1 as <-.
  assert (pattern d4 = pattern_of (pattern d) pos) as Hpat.
  { destruct H2 as [[_ ->]|(s2 & p2 & _ & _ & ->)];
      destruct H3 as [->|[r ->]];
      destruct H4 as [[-> _]|(-> & _)]; done. }
  change (pattern (push_rule _ d4)) with (pattern d4). rewrite Hpat.
  unfold pattern_of. cbn [all white pattern_pieces].
  split; [done|]. split; [done|].
  eexists. split; [done|]. apply listed_pieces.
Qed.
(** X13: The pattern a "fen" field leaves in the data: the two masks of the
    decoded position and, appended to the piece list the data already
    held, one entry per piece type of non-zero mask, in the order pawn to
    king. *)
Theorem fen_sets_pattern d j d' s pos :
  query_field j "fen" = JString s → set_fen s = Some pos →
  parse_rules d j = Done d' →
  all (pattern d') = pieces pos
  ∧ white (pattern d') = pieces_c pos WHITE
  ∧ ∃ added,
      pattern_pieces (pattern d') = pattern_pieces (pattern d) ++ added
      ∧ Forall (λ q, q.2 ≠ 0 ∧ q.2 = pieces_pt pos q.1) added
      ∧ map fst added = filter (λ pt, pieces_pt pos pt ≠ 0) piece_types.
Proof.
  intros Ef Es Hp.
  destruct (parse_rules_inv _ _ _ Hp) as (d1 & d2 & d3 & d4 & H1 & H2 & H3 & H4 & ->).
  apply parse_fen_inv in H1 as [_ H1]. apply parse_material_inv in H2 as [_ H2].
  apply parse_stm_inv in H3. apply parse_result_inv in H4.
  destruct H1 as [[E1 _]|(s1 & p1 & E1 & Es1 & ->)]; [by rewrite Ef in E1|].
  rewrite Ef in E1. injection E1 as <-. rewrite Es in Es1. injection Es1 as <-.
  assert (pattern d4 = pattern_of (pattern d) pos) as Hpat.
  { destruct H2 as [[_ ->]|(s2 & p2 & _ & _ & ->)];
      destruct H3 as [->|[r ->]];
      destruct H4 as [[-> _]|(-> & _)]; done. }
  change (pattern (push_rule _ d4)) with (pattern d4). rewrite Hpat.
  unfold pattern_of. cbn [all white pattern_pieces].
  split; [done|]. split; [done|].
  eexists. split; [done|]. apply listed_pieces.
Qed.

End CompilerOutcome.

Section PatternFacts.
Context `{Encoding, Engine}.

Lemma pattern_ok_contained (p : Pattern) (pos : Position) :
  pattern_ok p pos = true ↔
    contains (pieces pos) (all p)
    ∧ contains (pieces_c pos WHITE) (white p)
    ∧ Forall (λ q, contains (pieces_pt pos q.1) q.2) (pattern_pieces p).
Proof.
  unfold pattern_ok.
  rewrite !andb_true_iff, !Z.eqb_eq, !land_contains, forallb_forall.
  rewrite Forall_forall.
  setoid_rewrite <-list_elem_of_In. setoid_rewrite Z.eqb_eq.
  setoid_rewrite land_contains. tauto.
Qed.

Lemma contains_0 a : contains a 0.
Proof. intros i. by rewrite Z.bits_0. Qed.

(** X14: Compiled from a "fen" field into a data whose piece list is empty,
    the pattern test holds of a position exactly when that position
    contains, mask by mask (all pieces, white pieces, every piece type),
    the position decoded from the field; so the decoded position itself
    passes. *)
Theorem compiled_pattern_is_containment d j d' s pos :
  pattern_pieces (pattern d) = [] →
  query_field j "fen" = JString s → set_fen s = Some pos →
  parse_rules d j = Done d' →
  (∀ pos',
     pattern_ok (pattern d') pos' = true ↔
       contains (pieces pos') (pieces pos)
       ∧ contains (pieces_c pos' WHITE) (pieces_c pos WHITE)
       ∧ ∀ pt, contains (pieces_pt pos' pt) (pieces_pt pos pt))
  ∧ pattern_ok (pattern d') pos = true.
Proof.
  intros Hd Ef Es Hp.
  destruct (fen_pattern d j d' s pos Ef Es Hp)
    as (Hall & Hwhite & added & Hadd & Hok & Hfst).
  rewrite Hd in Hadd. simpl in Hadd.
  assert (∀ pos',
     pattern_ok (pattern d') pos' = true ↔
       contains (pieces pos') (pieces pos)
       ∧ contains (pieces_c pos' WHITE) (pieces_c pos WHITE)
       ∧ ∀ pt, contains (pieces_pt pos' pt) (pieces_pt pos pt)) as Hiff.
  { intros pos'. rewrite pattern_ok_contained, Hall, Hwhite, Hadd.
    split; intros (Ha & Hw & Hpt); (split; [done|]; split; [done|]).
    - intros pt.
      destruct (decide (pieces_pt pos pt = 0)) as [->|Hne]; [apply contains_0|].
      assert (pt ∈ map fst added) as Hin.
      { rewrite Hfst. apply list_elem_of_filter. split; [done|].
        destruct pt; unfold piece_types; rewrite !elem_of_cons; auto 10. }
      apply list_elem_of_fmap in Hin as ([pt' bb] & -> & Hin). simpl in *.
      pose proof (proj1 (Forall_forall _ _) Hpt _ Hin) as Hc.
      pose proof (proj1 (Forall_forall _ _) Hok _ Hin) as [_ Hbb].
      simpl in *. by rewrite <-Hbb.
    - apply Forall_forall. intros [pt bb] Hin.
      pose proof (proj1 (Forall_forall _ _) Hok _ Hin) as [_ Hbb].
      simpl in *. rewrite Hbb. apply Hpt. }
  split; [done|]. apply Hiff.
  assert (∀ a, contains a a) as Hrefl by (by intros a i Hi).
  split; [|split]; try intros pt; apply Hrefl.
Qed.
End PatternFacts.

Section RuleLoop.
Context `{Encoding, Engine}.

Lemma run_rules_past_closing d res pos rs extra :
  terminated rs → run_rules d res pos (rs ++ extra) = run_rules d res pos rs.
Proof.
  unfold terminated. induction rs as [|r rs IH]; intros Ht.
  - destruct Ht as [Ht|Ht]; by apply elem_of_nil in Ht.
  - assert (r = RuleEnd ∨ r = RuleNone ∨ terminated rs) as Hr.
    { unfold terminated. rewrite !elem_of_cons in Ht. intuition. }
    destruct r; simpl; try done;
      (destruct Hr as [?|[?|Hr]]; [done..|]);
      rewrite IH by done; done.
Qed.

Lemma run_rules_operands d d' res pos cur :
  pattern d' = pattern d → matKey d' = matKey d → result d' = result d →
  run_rules d' res pos cur = run_rules d res pos cur.
Proof.
  intros Hp Hm Hr. induction cur as [|r cur IH]; [done|].
  destruct r; simpl; rewrite ?Hp, ?Hm, ?Hr, ?IH; done.
Qed.

(** X9: Under a compiled program the rule loop always leaves through a
    closing opcode: it never reads past the end of the rule vector, and
    nothing stored after the first closing opcode changes a verdict. *)
Theorem rule_loop_stays_in_program d0 j d res pos :
  parse_rules d0 j = Done d →
  run_rules d res pos (rules d) ≠ OverRun
  ∧ ∀ extra, run_rules d res pos (rules d ++ extra)
             = run_rules d res pos (rules d).
Proof.
  intros Hp. pose proof (compiled_terminated d d0 j Hp) as Ht. split.
  - by apply run_rules_terminated.
  - intros extra. by apply run_rules_past_closing.
Qed.

(** X16: Compiling a query without any of the four fields into a data that
    already holds rules appends RuleEnd, not RuleNone; when those rules
    were a closed program, every verdict stays what it was. *)
Theorem empty_query_on_used_data d (m : gmap string json) :
  rules d ≠ [] →
  m !! "fen" = None → m !! "material" = None →
  m !! "stm" = None → m !! "result" = None →
  parse_rules d (JObject m) = Done (push_rule RuleEnd d)
  ∧ (terminated (rules d) →
     ∀ res pos,
       run_rules (push_rule RuleEnd d) res pos (rules (push_rule RuleEnd d))
       = run_rules d res pos (rules d)).
Proof.
  intros Hd Hf Hm Hs Hr. split.
  - assert (parse_fen d (JObject m) = Done d) as E1.
    { unfold parse_fen, json_at. by rewrite Hf. }
    assert (parse_material d (JObject m) = Done d) as E2.
    { unfold parse_material, json_at. by rewrite Hm. }
    assert (parse_stm d (JObject m) = Done d) as E3.
    { unfold parse_stm, json_at. by rewrite Hs. }
    assert (parse_result d (JObject m) = Done d) as E4.
    { unfold parse_result, json_at. by rewrite Hr. }
    unfold parse_rules.
    rewrite E1, bind_Done, E2, bind_Done, E3, bind_Done, E4, bind_Done.
    by rewrite bool_decide_eq_false_2.
  - intros Ht res pos. simpl rules.
    rewrite run_rules_past_closing by done. by apply run_rules_operands.
Qed.
End RuleLoop.

(** ** The counters as numbers of moves and of games *)

Section Counts.
Context `{Encoding, Engine}.

(** The moves of the games of [gs] whose result marker lies strictly
    between [lo] and [end_]. *)
Fixpoint opened_moves (lo end_ p : nat) (gs : list Game) : nat :=
  match gs with
  | [] => 0
  | g :: gs =>
      ((if bool_decide (lo < p < end_)%nat then length (moves g) else 0)
       + opened_moves lo end_ (p + length (encode g)) gs)%nat
  end.

(** The games among those that reach RuleEnd at some position. *)
Fixpoint opened_matches (d : Data) (rootPos : Position) (lo end_ p : nat)
    (gs : list Game) : nat :=
  match gs with
  | [] => 0
  | g :: gs =>
      ((if bool_decide (lo < p < end_)%nat
           && bool_decide (game_verdict d (to_sq (marker g)) rootPos (moves g)
                           = Matched)
        then 1 else 0)
       + opened_matches d rootPos lo end_ (p + length (encode g)) gs)%nat
  end.

Lemma incr_from_0 n : incr n 0 = wrap (Z.of_nat n).
Proof. destruct n as [|n]; [done|]. by rewrite incr_wrap by lia. Qed.

Lemma scan_opened_counts d rootPos lo end_ gs : ∀ p cnt matches,
  scan_opened d rootPos lo end_ p gs cnt matches
  = (incr (opened_moves lo end_ p gs) cnt,
     incr (opened_matches d rootPos lo end_ p gs) matches).
Proof.
  induction gs as [|g gs IH]; intros p cnt matches; [done|].
  rewrite scan_opened_cons. cbn [opened_moves opened_matches].
  case_bool_decide; rewrite IH, <-!incr_add; [|done].
  unfold credit. by case_bool_decide.
Qed.

Lemma game_verdict_nil d res pos : game_verdict d res pos [] = Failed.
Proof. reflexivity. Qed.

Lemma opened_matches_le d rootPos lo end_ gs : ∀ p,
  (opened_matches d rootPos lo end_ p gs ≤ opened_moves lo end_ p gs)%nat.
Proof.
  induction gs as [|g gs IH]; intros p; [done|].
  cbn [opened_moves opened_matches].
  specialize (IH (p + length (encode g))%nat).
  case_bool_decide; [|cbn [andb]; lia].
  case_bool_decide as Hv; [|cbn [andb]; lia].
  cbn [andb]. destruct (moves g) as [|m ms] eqn:Eg; [done|].
  cbn [length]. lia.
Qed.

Lemma opened_moves_le lo end_ gs : ∀ p,
  (opened_moves lo end_ p gs ≤ length (database gs))%nat.
Proof.
  induction gs as [|g gs IH]; intros p; [done|].
  cbn [opened_moves]. rewrite database_cons, length_app.
  pose proof (length_encode g).
  specialize (IH (p + length (encode g))%nat). case_bool_decide; lia.
Qed.

Lemma opened_moves_lt lo end_ gs p :
  gs ≠ [] → (opened_moves lo end_ p gs < length (database gs))%nat.
Proof.
  destruct gs as [|g gs]; [done|]. intros _.
  cbn [opened_moves]. rewrite database_cons, length_app.
  pose proof (length_encode g).
  pose proof (opened_moves_le lo end_ gs (p + length (encode g))).
  case_bool_decide; lia.
Qed.

Lemma worker_counters d rootPos d0 j gs nthreads idx fuel :
  parse_rules d0 j = Done d →
  Forall game_ok gs → gs ≠ [] →
  maps_database d0 gs →
  (idx < nthreads)%nat →
  (dbSize d0 < fuel)%nat →
  ∃ th,
    search d rootPos fuel nthreads idx = Done th
    ∧ movesCnt th
      = wrap (Z.of_nat (opened_moves (slice d0 nthreads idx).1
                          (slice d0 nthreads idx).2 0 gs))
    ∧ matchCnt th
      = wrap (Z.of_nat (opened_matches d rootPos (slice d0 nthreads idx).1
                          (slice d0 nthreads idx).2 0 gs)).
Proof.
  intros Hp Hok Hne [Hsz Hh] Hi Hf.
  destruct (parse_rules_inv _ _ _ Hp) as (d1 & d2 & d3 & d4 & H1 & H2 & H3 & H4 & Ed).
  assert (baseAddress d = baseAddress d0 ∧ dbSize d = dbSize d0) as [Eb Es].
  { apply parse_fen_inv in H1 as [_ H1]. apply parse_material_inv in H2 as [_ H2].
    apply parse_stm_inv in H3. apply parse_result_inv in H4. subst d.
    destruct H1 as [[_ ->]|(? & ? & _ & _ & ->)];
      destruct H2 as [[_ ->]|(? & ? & _ & _ & ->)];
      destruct H3 as [->|[? ->]];
      destruct H4 as [[-> _]|(-> & _)]; done. }
  assert (slice d nthreads idx = slice d0 nthreads idx) as Esl.
  { unfold slice. by rewrite Es. }
  eexists. split.
  - apply (worker_counts_opened_games_aux d rootPos gs); try done.
    + by eapply compiled_terminated.
    + split; [by rewrite Es | by rewrite Eb].
    + by rewrite Es.
  - rewrite Esl, scan_opened_counts, !incr_from_0. done.
Qed.
End Counts.

Section CounterClaims.
Context `{Encoding, Engine}.

(** The moves of the games [gs], and the games among them that reach
    RuleEnd at some position. *)
Definition moves_played (gs : list Game) : nat :=
  foldr (λ g n, (length (moves g) + n)%nat) 0%nat gs.

Definition games_matched (d : Data) (rootPos : Position) (gs : list Game)
    : nat :=
  length (filter (λ g, game_verdict d (to_sq (marker g)) rootPos (moves g)
                       = Matched) gs).

Lemma opened_moves_all lo end_ gs : ∀ p,
  (lo < p)%nat → (p + length (database gs) ≤ end_)%nat →
  opened_moves lo end_ p gs = moves_played gs.
Proof.
  induction gs as [|g gs IH]; intros p Hlo Hend; [done|].
  cbn [opened_moves moves_played foldr].
  rewrite database_cons, length_app in Hend. pose proof (length_encode g).
  rewrite bool_decide_eq_true_2 by lia.
  rewrite IH by lia. done.
Qed.

Lemma opened_matches_all d rootPos lo end_ gs : ∀ p,
  (lo < p)%nat → (p + length (database gs) ≤ end_)%nat →
  opened_matches d rootPos lo end_ p gs = games_matched d rootPos gs.
Proof.
  induction gs as [|g gs IH]; intros p Hlo Hend; [done|].
  cbn [opened_matches]. unfold games_matched. rewrite filter_cons.
  rewrite database_cons, length_app in Hend. pose proof (length_encode g).
  rewrite bool_decide_eq_true_2 by lia.
  rewrite IH by lia. cbn [andb]. unfold games_matched.
  by case_bool_decide; [rewrite decide_True|rewrite decide_False].
Qed.

(** X5: The moves a worker reports do not depend on the query, nor on what
    the engine makes of the moves: two compiled queries over the same
    mapping give every worker the same move count. *)
Theorem moves_do_not_depend_on_query d0 j1 j2 d1 d2 r1 r2 gs nthreads idx fuel :
  parse_rules d0 j1 = Done d1 → parse_rules d0 j2 = Done d2 →
  Forall game_ok gs → gs ≠ [] →
  maps_database d0 gs →
  (idx < nthreads)%nat →
  (dbSize d0 < fuel)%nat →
  ∃ th1 th2,
    search d1 r1 fuel nthreads idx = Done th1
    ∧ search d2 r2 fuel nthreads idx = Done th2
    ∧ movesCnt th1 = movesCnt th2.
Proof.
  intros Hp1 Hp2 Hok Hne Hdb Hi Hf.
  destruct (worker_counters d1 r1 d0 j1 gs nthreads idx fuel)
    as (th1 & E1 & M1 & _); try done.
  destruct (worker_counters d2 r2 d0 j2 gs nthreads idx fuel)
    as (th2 & E2 & M2 & _); try done.
  exists th1, th2. by rewrite M1, M2.
Qed.

(** X6: On a mapping of fewer than [2^64] moves the counters of a worker do
    not wrap around: the matches it reports are at most the moves it
    reports, which are fewer than the moves of the mapping. *)
Theorem matches_at_most_moves d0 j d rootPos gs nthreads idx fuel :
  parse_rules d0 j = Done d →
  Forall game_ok gs → gs ≠ [] →
  maps_database d0 gs →
  (idx < nthreads)%nat →
  (dbSize d0 < fuel)%nat →
  Z.of_nat (dbSize d0) < 2 ^ 64 →
  ∃ th,
    search d rootPos fuel nthreads idx = Done th
    ∧ 0 ≤ matchCnt th ≤ movesCnt th
    ∧ movesCnt th < Z.of_nat (dbSize d0).
Proof.
  intros Hp Hok Hne Hdb Hi Hf Hsz.
  destruct (worker_counters d rootPos d0 j gs nthreads idx fuel)
    as (th & E & Hm & Hc); try done.
  exists th. split; [done|]. rewrite Hm, Hc. destruct Hdb as [Hdb _].
  pose proof (opened_matches_le d rootPos (slice d0 nthreads idx).1
                (slice d0 nthreads idx).2 gs 0).
  pose proof (opened_moves_lt (slice d0 nthreads idx).1
                (slice d0 nthreads idx).2 gs 0 Hne).
  unfold wrap. rewrite !Z.mod_small by lia. lia.
Qed.

(** X4: A single worker replays every game of the database but the first,
    which the search for the first sentinel passes over. *)
Theorem single_worker_skips_first_game d0 j d rootPos g gs fuel :
  parse_rules d0 j = Done d →
  Forall game_ok (g :: gs) →
  maps_database d0 (g :: gs) →
  (dbSize d0 < fuel)%nat →
  ∃ th,
    search d rootPos fuel 1 0 = Done th
    ∧ movesCnt th = wrap (Z.of_nat (moves_played gs))
    ∧ matchCnt th = wrap (Z.of_nat (games_matched d rootPos gs)).
Proof.
  intros Hp Hok Hdb Hf.
  destruct (worker_counters d rootPos d0 j (g :: gs) 1 0 fuel)
    as (th & E & Hm & Hc); try done; [lia|].
  exists th. split; [done|]. rewrite Hm, Hc.
  unfold slice. cbn [fst snd]. rewrite bool_decide_eq_true_2 by done.
  destruct Hdb as [-> _]. rewrite Nat.mul_0_l.
  cbn [opened_moves opened_matches].
  rewrite (bool_decide_eq_false_2 (0 < 0 < _)%nat) by lia.
  pose proof (length_encode g). rewrite database_cons, length_app.
  rewrite opened_moves_all, opened_matches_all by lia. done.
Qed.
End CounterClaims.

(** ** A query on the result alone, and degenerate splits *)

Section ResultOnly.
Context `{Encoding, Engine}.

Lemma result_program_verdict d res pos ms :
  rules d = [RuleResult; RuleEnd] →
  game_verdict d res pos ms = Matched ↔ ms ≠ [] ∧ res = result d.
Proof.
  intros Hr. destruct ms as [|m ms]; [by split; [|intros []]|].
  cbn [game_verdict]. rewrite Hr. cbn [run_rules].
  destruct (res =? result d) eqn:E.
  - apply Z.eqb_eq in E. by split.
  - apply Z.eqb_neq in E. by split; [|intros []].
Qed.

(** X10: A query whose only field is a recognized result compiles to the
    result test followed by RuleEnd, and a game then reaches RuleEnd
    exactly when it has at least one move and its marker carries the
    result asked for: a game without moves is never counted. *)
Theorem result_only_query d0 (m : gmap string json) s d :
  rules d0 = [] →
  m !! "fen" = None → m !! "material" = None → m !! "stm" = None →
  m !! "result" = Some (JString s) → s ∈ result_names →
  parse_rules d0 (JObject m) = Done d →
  rules d = [RuleResult; RuleEnd]
  ∧ result d = result_of_json (JString s)
  ∧ ∀ rootPos g,
      game_verdict d (to_sq (marker g)) rootPos (moves g) = Matched
      ↔ moves g ≠ [] ∧ to_sq (marker g) = result d.
Proof.
  intros Hd Hf Hm Hs Hr Hin.
  assert (parse_fen d0 (JObject m) = Done d0) as E1.
  { unfold parse_fen, json_at. by rewrite Hf. }
  assert (parse_material d0 (JObject m) = Done d0) as E2.
  { unfold parse_material, json_at. by rewrite Hm. }
  assert (parse_stm d0 (JObject m) = Done d0) as E3.
  { unfold parse_stm, json_at. by rewrite Hs. }
  assert (result_of_json (JString s) ≠ Invalid) as Hv.
  { apply result_of_json_recognized. eauto. }
  assert (parse_result d0 (JObject m)
          = Done (push_rule RuleResult
                    (set_result (result_of_json (JString s)) d0))) as E4.
  { unfold parse_result, json_at. rewrite Hr, bind_Done.
    cbn [default from_option id json_empty].
    by apply Z.eqb_neq in Hv as ->. }
  unfold parse_rules.
  rewrite E1, bind_Done, E2, bind_Done, E3, bind_Done, E4, bind_Done.
  cbn [rules push_rule set_result]. rewrite Hd. cbn [app].
  rewrite bool_decide_eq_false_2 by done.
  intros [= <-]. cbn [rules result push_rule set_result]. rewrite Hd.
  split; [done|]. split; [done|].
  intros rootPos g. apply result_program_verdict.
  cbn [rules push_rule set_result]. by rewrite Hd.
Qed.
End ResultOnly.

Section DegenerateSplit.
Context `{Encoding, Engine}.

Lemma main_loop_empty_range d rootPos fuel data cnt matches r :
  main_loop d rootPos fuel data 0 cnt matches = Done r → r = (cnt, matches).
Proof.
  destruct fuel as [|fuel]; [done|]. rewrite main_loop_eq.
  rewrite bool_decide_eq_false_2 by lia. by intros [= <-].
Qed.

(** X7: With more threads than moves in the mapping the nominal range is 0:
    the last thread does exactly the work of a single worker, and every
    other thread that finishes reports no move and no match. *)
Theorem more_threads_than_moves d rootPos fuel nthreads :
  (dbSize d < nthreads)%nat →
  search d rootPos fuel nthreads (nthreads - 1) = search d rootPos fuel 1 0
  ∧ ∀ idx th,
      (idx < nthreads - 1)%nat →
      search d rootPos fuel nthreads idx = Done th →
      th = set_counters 0 0 d.
Proof.
  intros Hn. assert (dbSize d / nthreads = 0)%nat as Hr
    by (apply Nat.div_small; lia).
  split.
  - unfold search. rewrite Hr, !bool_decide_eq_false_2 by lia.
    rewrite !bool_decide_eq_true_2 by lia.
    by rewrite Nat.mul_0_r, Nat.mul_0_l.
  - intros idx th Hi. unfold search. rewrite Hr.
    rewrite bool_decide_eq_false_2 by lia.
    rewrite (bool_decide_eq_false_2 (idx = _)) by lia.
    rewrite Nat.mul_0_r. cbn [Nat.add].
    destruct (next_game d fuel 0) as [data| |]; [|done..].
    rewrite bind_Done.
    destruct (main_loop _ _ _ _ _ _ _) as [[cnt matches]| |] eqn:Em; [|done..].
    apply main_loop_empty_range in Em as [= -> ->].
    rewrite bind_Done. by intros [= <-].
Qed.
End DegenerateSplit.

(** ** print_results *)

(** [TimePoint] is declared in misc.h, which is not among the sources at
    hand; it is taken to be the signed 64-bit count of milliseconds of
    std::chrono, and signed overflow is undefined. *)
Definition TIME_MIN : Z := - 2 ^ 63.
Definition TIME_MAX : Z := 2 ^ 63 - 1.

Definition in_time_range (t : Z) : bool :=
  bool_decide (TIME_MIN ≤ t ≤ TIME_MAX).

(** The four numbers of the report. *)
Record Report := {
  report_moves : Z;
  report_matches : Z;
  report_rate : Z;
  report_elapsed : Z
}.

(** [print_results], the clock reading [now] and the threads being given:
    [elapsed = now() - startTime + 1], the two sums over the threads, and
    [1000 * cnt / elapsed] computed on unsigned 64-bit words. *)
Definition print_results (now startTime : Z) (ths : list Data)
    : outcome Report :=
  if negb (in_time_range (now - startTime)) then Undefined
  else
    let elapsed := now - startTime + 1 in
    if negb (in_time_range elapsed) then Undefined
    else
      let cnt := total_moves ths in
      let matches := total_matches ths in
      if wrap elapsed =? 0 then Undefined
      else Done {| report_moves := cnt;
                   report_matches := matches;
                   report_rate := wrap (1000 * cnt) / wrap elapsed;
                   report_elapsed := elapsed |}.

Section Report.

Lemma foldl_wrap {A} (g : A → Z) (l : list A) : ∀ a,
  foldl (λ c x, wrap (c + g x)) (wrap a) l
  = wrap (a + foldr (λ x n, g x + n) 0 l).
Proof.
  induction l as [|x l IH]; intros a; simpl.
  - by rewrite Z.add_0_r.
  - replace (wrap (wrap a + g x)) with (wrap (a + g x))
      by (unfold wrap; by rewrite Zplus_mod_idemp_l).
    rewrite IH. f_equal. lia.
Qed.

Lemma total_moves_sum ths :
  total_moves ths = wrap (foldr (λ th n, movesCnt th + n) 0 ths).
Proof.
  unfold total_moves. change 0 with (wrap 0) at 1.
  by rewrite (foldl_wrap movesCnt ths 0).
Qed.

Lemma total_matches_sum ths :
  total_matches ths = wrap (foldr (λ th n, matchCnt th + n) 0 ths).
Proof.
  unfold total_matches. change 0 with (wrap 0) at 1.
  by rewrite (foldl_wrap matchCnt ths 0).
Qed.

(** X17: With a clock that does not run backwards the report is always
    produced: the elapsed time is at least one millisecond, so the rate
    is never a division by zero, and the two totals are the sums of the
    per-thread counters modulo [2^64]. *)
Theorem print_results_reports now startTime ths :
  0 ≤ startTime ≤ now → now < TIME_MAX →
  ∃ r,
    print_results now startTime ths = Done r
    ∧ report_moves r = wrap (foldr (λ th n, movesCnt th + n) 0 ths)
    ∧ report_matches r = wrap (foldr (λ th n, matchCnt th + n) 0 ths)
    ∧ report_elapsed r = now - startTime + 1
    ∧ 1 ≤ report_elapsed r
    ∧ 0 ≤ report_rate r ≤ wrap (1000 * report_moves r).
Proof.
  unfold TIME_MAX. intros Hs Hn. unfold print_results, in_time_range.
  unfold TIME_MIN, TIME_MAX.
  rewrite !bool_decide_eq_true_2 by lia. cbn [negb].
  assert (wrap (now - startTime + 1) = now - startTime + 1) as Ew.
  { unfold wrap. apply Z.mod_small. lia. }
  rewrite Ew. destruct (now - startTime + 1 =? 0) eqn:E0.
  { apply Z.eqb_eq in E0. lia. }
  eexists. split; [done|]. cbn [report_moves report_matches report_rate
                                report_elapsed].
  split; [apply total_moves_sum|]. split; [apply total_matches_sum|].
  split; [done|]. split; [lia|].
  assert (0 ≤ wrap (1000 * total_moves ths)) as Hw.
  { unfold wrap. apply Z.mod_pos_bound. lia. }
  split.
  - apply Z.div_pos; lia.
  - apply Z.div_le_upper_bound; [lia|]. nia.
Qed.
End Report.

(** ** The state buffer and the operands *)

Section Bounds.
Context `{Encoding, Engine}.

(** X8: The state buffer holds [MAX_STATES] elements: when that many moves of
    a game have been played, each leaving the rule loop at Failed, and one
    more move follows, the replay runs over the end of the buffer. *)
Theorem state_buffer_overrun d res ms : ∀ m fuel data pos st cnt matches,
  holds (baseAddress d) (S data) (ms ++ [m]) →
  Forall (λ m, m ≠ MOVE_NONE) (ms ++ [m]) →
  (st + length ms = MAX_STATES)%nat →
  all_failed d res pos ms = true →
  (length ms < fuel)%nat →
  replay d res fuel data pos st cnt matches = Undefined.
Proof.
  induction ms as [|m' ms IH]; intros m fuel data pos st cnt matches Hh Hms Hst Ha Hf;
    (destruct fuel as [|fuel]; [simpl in Hf; lia|]); rewrite replay_eq;
    simpl in Hh; apply holds_cons in Hh as [Hp Hh];
    simpl in Hms; apply Forall_cons in Hms as [Hm Hms];
    unfold peek; rewrite Hp; apply Z.eqb_neq in Hm as ->.
  - simpl in Hst. by rewrite bool_decide_eq_true_2 by lia.
  - simpl in Hst, Hf, Ha. apply andb_true_iff in Ha as [Hv Ha].
    apply bool_decide_eq_true in Hv.
    rewrite bool_decide_eq_false_2 by lia. rewrite Hv.
    apply (IH m); try done; lia.
Qed.

(** X15: The operands the compiler stores: the material key of the position
    decoded from the "material" field, and the result named by a
    recognized "result" field. *)
Theorem query_operands d j d' :
  parse_rules d j = Done d' →
  (∀ s pos,
     query_field j "material" = JString s → set_material s = Some pos →
     matKey d' = material_key pos ∧ RuleMaterial ∈ rules d')
  ∧ (∀ s,
       query_field j "result" = JString s → s ∈ result_names →
       result d' = result_of_json (JString s) ∧ RuleResult ∈ rules d').
Proof.
  intros Hp. pose proof (parse_rules_program _ _ _ Hp) as Hrules.
  destruct (parse_rules_inv _ _ _ Hp) as (d1 & d2 & d3 & d4 & H1 & H2 & H3 & H4 & ->).
  apply parse_material_inv in H2 as [_ H2].
  apply parse_stm_inv in H3. apply parse_result_inv in H4.
  split.
  - intros s pos Ef Es. split.
    + destruct H2 as [[E2 _]|(s2 & p2 & E2 & Es2 & ->)]; [by rewrite Ef in E2|].
      rewrite Ef in E2. injection E2 as <-. rewrite Es in Es2. injection Es2 as <-.
      destruct H3 as [->|[r ->]]; destruct H4 as [[-> _]|(-> & _)]; done.
    + rewrite Hrules, !elem_of_app, elem_of_predicate_ops, Ef.
      right. left. right. left. done.
  - intros s Er Hs.
    assert (result_of_json (JString s) ≠ Invalid) as Hv.
    { apply result_of_json_recognized. eauto. }
    split.
    + destruct H4 as [[_ [E4|E4]]|(-> & _)]; rewrite Er in *; done.
    + rewrite Hrules, !elem_of_app, elem_of_predicate_ops, Er.
      apply Z.eqb_neq in Hv. right. left. right. right. right. done.
Qed.
End Bounds.

(** ** Runs of the further properties on the small instance *)

Section MoreWitnesses.
Import Sample Cases.

(** The mapping of [two_games], before any query is compiled. *)
Definition two_games_data : Data := data_over (database two_games) 0.

(** The data compiled from [black_to_move] over [two_games]. *)
Definition black_data : Data := compile (database two_games) 0 black_to_move.

Definition white_wins : json := JObject {[ "result" := JString "1-0" ]}.

Lemma black_data_compiled :
  parse_rules two_games_data black_to_move = Done black_data.
Proof. vm_compute. reflexivity. Defined.

Lemma two_games_ok : Forall game_ok two_games.
Proof. repeat constructor; try done; unfold MAX_STATES; simpl; lia. Defined.

Lemma two_games_mapped : maps_database two_games_data two_games.
Proof. split; [reflexivity | apply holdsb_holds; reflexivity]. Defined.

(** Three games of one, three and two moves. *)
Definition long_games : list Game :=
  [ {| marker := result_marker WhiteWin; moves := [mv 12 20] |};
    long_game;
    {| marker := result_marker Draw; moves := [mv 4 5; mv 60 59] |} ].

(** The mapping of [long_games], before any query is compiled. *)
Definition long_games_data : Data := data_over (database long_games) 0.

(** The data compiled from [king_on_e1] over [long_games]. *)
Definition king_over_long : Data := compile (database long_games) 0 king_on_e1.

Lemma long_games_ok : Forall game_ok long_games.
Proof. repeat constructor; try done; unfold MAX_STATES; simpl; lia. Defined.

Lemma long_games_mapped : maps_database long_games_data long_games.
Proof. split; [reflexivity | apply holdsb_holds; reflexivity]. Defined.

Lemma king_over_long_mapped : maps_database king_over_long long_games.
Proof. split; [reflexivity | apply holdsb_holds; reflexivity]. Defined.

Lemma king_over_long_terminated : terminated (rules king_over_long).
Proof. left. apply list_elem_of_further, list_elem_of_here. Defined.

(** The first of two workers over [long_games] has the slice from 0 to 6:
    it opens the second game, at offset 3, and no other; the king is on e1
    after the first move of that game, which is credited, and the three
    moves of the game are counted. *)
Lemma worker_counts_opened_games_witness :
  slice king_over_long 2 0 = (0%nat, 6%nat)
  ∧ scan_opened king_over_long start 0 6 0 long_games 0 0 = (3, 1)
  ∧ search king_over_long start 13 2 0
    = Done (set_counters 3 1 king_over_long).
Proof.
  split; [vm_compute; reflexivity|]. split; [vm_compute; reflexivity|].
  etrans.
  - apply (@worker_counts_opened_games encoding engine king_over_long start
             long_games 2 0 13 king_over_long_terminated long_games_ok).
    + discriminate.
    + exact king_over_long_mapped.
    + lia.
    + vm_compute. lia.
  - vm_compute. reflexivity.
Defined.

Lemma games_opened_at_most_once_witness : 1%nat = 1%nat.
Proof.
  apply (games_opened_at_most_once black_data 2 1 1 4).
  - lia.
  - lia.
  - vm_compute. lia.
  - vm_compute. lia.
Defined.

Lemma game_opened_iff_off_nominal_starts_witness :
  (∃ idx, (idx < 2)%nat ∧ opened_by black_data 2 idx 4)
  ↔ ∀ idx, (idx < 2)%nat → 4%nat ≠ (idx * (dbSize black_data / 2))%nat.
Proof.
  apply (game_opened_iff_off_nominal_starts black_data 2 4).
  - lia.
  - vm_compute. lia.
Defined.

Lemma parse_rules_changes_only_the_query_witness :
  baseAddress black_data = baseAddress two_games_data
  ∧ dbSize black_data = dbSize two_games_data
  ∧ movesCnt black_data = movesCnt two_games_data
  ∧ matchCnt black_data = matchCnt two_games_data
  ∧ (json_empty (query_field black_to_move "fen") = true →
     pattern black_data = pattern two_games_data)
  ∧ (json_empty (query_field black_to_move "material") = true →
     matKey black_data = matKey two_games_data)
  ∧ (RuleResult ∉ predicate_ops black_to_move →
     result black_data = result two_games_data).
Proof.
  exact (@parse_rules_changes_only_the_query encoding engine _ _ _
           black_data_compiled).
Defined.

Lemma minor_pieces_compiled :
  parse_rules (data_over [] 0) minor_pieces = Done (compile [] 0 minor_pieces).
Proof. vm_compute. reflexivity. Defined.

(** The position decoded from the field of [minor_pieces]. *)
Definition minor_position : position :=
  {| placed := [ {| sq := 40; color := BLACK; kind := PAWN |};
                 {| sq := 17; color := WHITE; kind := BISHOP |};
                 {| sq := 21; color := WHITE; kind := KNIGHT |} ];
     turn := WHITE |}.

Lemma fen_sets_pattern_witness :
  all (pattern (compile [] 0 minor_pieces)) = pieces minor_position
  ∧ white (pattern (compile [] 0 minor_pieces)) = pieces_c minor_position WHITE
  ∧ ∃ added,
      pattern_pieces (pattern (compile [] 0 minor_pieces))
      = pattern_pieces (pattern (data_over [] 0)) ++ added
      ∧ Forall (λ q, q.2 ≠ 0 ∧ q.2 = pieces_pt minor_position q.1) added
      ∧ map fst added
        = filter (λ pt, pieces_pt minor_position pt ≠ 0) piece_types.
Proof.
  apply (@fen_sets_pattern encoding engine (data_over [] 0) minor_pieces _
           "8/8/p7/8/8/1B3N2/8/8" minor_position).
  - reflexivity.
  - vm_compute. reflexivity.
  - exact minor_pieces_compiled.
Defined.

Lemma compiled_pattern_is_containment_witness :
  (∀ pos',
     pattern_ok (pattern (compile [] 0 minor_pieces)) pos' = true ↔
       contains (pieces pos') (pieces minor_position)
       ∧ contains (pieces_c pos' WHITE) (pieces_c minor_position WHITE)
       ∧ ∀ pt, contains (pieces_pt pos' pt) (pieces_pt minor_position pt))
  ∧ pattern_ok (pattern (compile [] 0 minor_pieces)) minor_position = true.
Proof.
  apply (@compiled_pattern_is_containment encoding engine (data_over [] 0)
           minor_pieces _ "8/8/p7/8/8/1B3N2/8/8" minor_position).
  - reflexivity.
  - reflexivity.
  - vm_compute. reflexivity.
  - exact minor_pieces_compiled.
Defined.

Lemma rule_loop_stays_in_program_witness :
  run_rules king_data 0 start (rules king_data) ≠ OverRun
  ∧ ∀ extra, run_rules king_data 0 start (rules king_data ++ extra)
             = run_rules king_data 0 start (rules king_data).
Proof.
  exact (@rule_loop_stays_in_program encoding engine _ _ _ 0 start
           king_data_compiled).
Defined.

Lemma empty_query_on_used_data_witness :
  parse_rules king_data (JObject ∅) = Done (push_rule RuleEnd king_data)
  ∧ (terminated (rules king_data) →
     ∀ res pos,
       run_rules (push_rule RuleEnd king_data) res pos
         (rules (push_rule RuleEnd king_data))
       = run_rules king_data res pos (rules king_data)).
Proof.
  apply (@empty_query_on_used_data encoding engine king_data ∅).
  - discriminate.
  - reflexivity.
  - reflexivity.
  - reflexivity.
  - reflexivity.
Defined.
End MoreWitnesses.

Section CounterWitnesses.
Import Sample Cases.

(** The data compiled from [black_to_move] over [long_games]. *)
Definition black_over_long : Data :=
  compile (database long_games) 0 black_to_move.

(** The data compiled from [white_to_move_black_won] over [long_games]. *)
Definition mismatch_over_long : Data :=
  compile (database long_games) 0 white_to_move_black_won.

Lemma black_over_long_compiled :
  parse_rules long_games_data black_to_move = Done black_over_long.
Proof. vm_compute. reflexivity. Defined.

Lemma mismatch_over_long_compiled :
  parse_rules long_games_data white_to_move_black_won
  = Done mismatch_over_long.
Proof. vm_compute. reflexivity. Defined.

(** A single worker over [long_games] opens the second and the third
    game.  Under [black_to_move] both match at their first move; under
    [white_to_move_black_won] both are abandoned at their second move
    and none matches.  The move count is 5 in both runs. *)
Lemma moves_do_not_depend_on_query_witness :
  ∃ th1 th2,
    search black_over_long start 13 1 0 = Done th1
    ∧ search mismatch_over_long start 13 1 0 = Done th2
    ∧ movesCnt th1 = movesCnt th2
    ∧ movesCnt th1 = 5 ∧ matchCnt th1 = 2 ∧ matchCnt th2 = 0.
Proof.
  destruct (@moves_do_not_depend_on_query encoding engine long_games_data
              black_to_move white_to_move_black_won black_over_long
              mismatch_over_long start start long_games 1 0 13
              black_over_long_compiled mismatch_over_long_compiled
              long_games_ok)
    as (th1 & th2 & E1 & E2 & Em).
  - discriminate.
  - exact long_games_mapped.
  - lia.
  - vm_compute. lia.
  - exists th1, th2. split; [exact E1|]. split; [exact E2|].
    split; [exact Em|].
    assert (search black_over_long start 13 1 0
            = Done (set_counters 5 2 black_over_long)) as R1
      by (vm_compute; reflexivity).
    assert (search mismatch_over_long start 13 1 0
            = Done (set_counters 5 0 mismatch_over_long)) as R2
      by (vm_compute; reflexivity).
    rewrite R1 in E1. injection E1 as <-.
    rewrite R2 in E2. injection E2 as <-.
    split; [reflexivity|]. split; reflexivity.
Defined.

Lemma matches_at_most_moves_witness :
  ∃ th,
    search black_data start 7 1 0 = Done th
    ∧ 0 ≤ matchCnt th ≤ movesCnt th
    ∧ movesCnt th < Z.of_nat (dbSize two_games_data).
Proof.
  apply (@matches_at_most_moves encoding engine two_games_data black_to_move
           black_data start two_games 1 0 7 black_data_compiled two_games_ok).
  - discriminate.
  - exact two_games_mapped.
  - lia.
  - vm_compute. lia.
  - vm_compute. reflexivity.
Defined.

Lemma single_worker_skips_first_game_witness :
  ∃ th,
    search black_data start 7 1 0 = Done th
    ∧ movesCnt th = wrap (Z.of_nat (moves_played (tail two_games)))
    ∧ matchCnt th
      = wrap (Z.of_nat (games_matched black_data start (tail two_games))).
Proof.
  apply (@single_worker_skips_first_game encoding engine two_games_data
           black_to_move black_data start _ _ 7 black_data_compiled
           two_games_ok two_games_mapped).
  vm_compute. lia.
Defined.

Lemma white_wins_compiled :
  parse_rules (data_over [] 0) white_wins = Done (compile [] 0 white_wins).
Proof. vm_compute. reflexivity. Defined.

Lemma result_only_query_witness :
  rules (compile [] 0 white_wins) = [RuleResult; RuleEnd]
  ∧ result (compile [] 0 white_wins) = result_of_json (JString "1-0")
  ∧ ∀ rootPos g,
      game_verdict (compile [] 0 white_wins) (to_sq (marker g)) rootPos (moves g)
      = Matched
      ↔ moves g ≠ [] ∧ to_sq (marker g) = result (compile [] 0 white_wins).
Proof.
  apply (@result_only_query encoding engine (data_over [] 0)
           {[ "result" := JString "1-0" ]} "1-0").
  - reflexivity.
  - reflexivity.
  - reflexivity.
  - reflexivity.
  - reflexivity.
  - apply list_elem_of_here.
  - exact white_wins_compiled.
Defined.

Lemma more_threads_than_moves_witness :
  search black_data start 7 7 (7 - 1) = search black_data start 7 1 0
  ∧ ∀ idx th,
      (idx < 7 - 1)%nat →
      search black_data start 7 7 idx = Done th →
      th = set_counters 0 0 black_data.
Proof.
  apply (@more_threads_than_moves encoding engine black_data start 7 7).
  vm_compute. lia.
Defined.

(** The threads of a scan that finished. *)
Definition finished (os : list (outcome Data)) : list Data :=
  omap (λ o, match o with Done th => Some th | _ => None end) os.

(** The two threads of a scan of [long_games] for [king_on_e1]. *)
Definition long_threads : list Data :=
  finished (scan 13 2 start king_over_long).

(** Two threads whose move counters add up to [2^64 + 1]. *)
Definition full_threads : list Data :=
  [ set_counters (2 ^ 64 - 1) 1 king_over_long;
    set_counters 2 1 king_over_long ].

(** The two threads of the scan counted 3 and 2 moves and 1 and 0 matches:
    the report has 5 moves, 1 match and, after 8 ms, 625 moves a second.
    With counters that add up to [2^64 + 1] the reported sum is 1. *)
Lemma print_results_reports_witness :
  map (λ th, (movesCnt th, matchCnt th)) long_threads = [(3, 1); (2, 0)]
  ∧ print_results 10 3 long_threads
    = Done {| report_moves := 5; report_matches := 1;
              report_rate := 625; report_elapsed := 8 |}
  ∧ (∃ r,
       print_results 10 3 full_threads = Done r
       ∧ report_moves r = 1 ∧ report_matches r = 2
       ∧ report_elapsed r = 8 ∧ 0 ≤ report_rate r ≤ 1000).
Proof.
  split; [vm_compute; reflexivity|]. split.
  - destruct (print_results_reports 10 3 long_threads)
      as (r & E & Hm & Hc & He & _ & Hr); [lia | vm_compute; reflexivity |].
    rewrite E. destruct r as [m c q e]. simpl in Hm, Hc, He, Hr.
    assert (q = 625) as ->.
    { vm_compute in E. by injection E as _ _ <- _. }
    rewrite Hm, Hc, He. vm_compute. reflexivity.
  - destruct (print_results_reports 10 3 full_threads)
      as (r & E & Hm & Hc & He & _ & Hr); [lia | vm_compute; reflexivity |].
    exists r. split; [exact E|].
    assert (report_moves r = 1) as Hm1 by (rewrite Hm; vm_compute; reflexivity).
    split; [exact Hm1|].
    split; [rewrite Hc; vm_compute; reflexivity|].
    split; [rewrite He; reflexivity|].
    rewrite Hm1 in Hr. exact Hr.
Defined.

(** The two kings step aside and back, 256 times: 1024 moves that leave
    every piece where it was. *)
Definition shuffle : list Move :=
  concat (replicate 256 [mv 4 3; mv 60 59; mv 3 4; mv 59 60]).

(** A drawn game of 1025 moves, and the data compiled from [minor_pieces]
    over it. *)
Definition endless_game : Game :=
  {| marker := result_marker Draw; moves := shuffle ++ [mv 4 3] |}.

Definition endless_data : Data :=
  compile (database [endless_game]) 0 minor_pieces.

(** No position of [endless_game] holds the pattern, so each of its first
    1024 moves is played on a new state; the 1025th has none. *)
Lemma state_buffer_overrun_witness :
  length shuffle = MAX_STATES
  ∧ all_failed endless_data 2 start shuffle = true
  ∧ replay endless_data 2 1025 0 start 0 0 0 = Undefined.
Proof.
  split; [vm_compute; reflexivity|]. split; [vm_compute; reflexivity|].
  apply (@state_buffer_overrun encoding engine endless_data 2 shuffle
           (mv 4 3) 1025%nat 0%nat start 0%nat 0 0).
  - apply holdsb_holds. vm_compute. reflexivity.
  - apply (bool_decide_unpack _). vm_compute. exact I.
  - vm_compute. reflexivity.
  - vm_compute. reflexivity.
  - apply Nat.ltb_lt. vm_compute. reflexivity.
Defined.

Definition lost_knight_ending : json :=
  JObject {[ "material" := JString "KBNKP"; "result" := JString "0-1" ]}.

Lemma lost_knight_ending_compiled :
  parse_rules (data_over [] 0) lost_knight_ending
  = Done (compile [] 0 lost_knight_ending).
Proof. vm_compute. reflexivity. Defined.

(** A query with a material code and a result: both operands are stored
    and both opcodes emitted. *)
Lemma query_operands_witness :
  ∃ pos,
    set_material "KBNKP" = Some pos
    ∧ matKey (compile [] 0 lost_knight_ending) = material_key pos
    ∧ RuleMaterial ∈ rules (compile [] 0 lost_knight_ending)
    ∧ result (compile [] 0 lost_knight_ending) = BlackWin
    ∧ RuleResult ∈ rules (compile [] 0 lost_knight_ending)
    ∧ 0 < material_key pos.
Proof.
  destruct (@query_operands encoding engine _ _ _ lost_knight_ending_compiled)
    as [Hm Hr].
  destruct (of_material "KBNKP") as [pos|] eqn:Es;
    [|vm_compute in Es; discriminate].
  exists pos. split; [exact Es|].
  destruct (Hm "KBNKP" pos) as [Hk Hin];
    [vm_compute; reflexivity | exact Es |].
  destruct (Hr "0-1") as [Hres Hin'].
  { vm_compute. reflexivity. }
  { apply list_elem_of_further, list_elem_of_here. }
  split; [exact Hk|]. split; [exact Hin|]. split; [exact Hres|].
  split; [exact Hin'|].
  vm_compute in Es. injection Es as <-. vm_compute. reflexivity.
Defined.
End CounterWitnesses.
